(** * Observation and communication graphs of the nepiada grid world

    A shallow embedding of [src/nepiada/utils/graphs.py] (class [Graph]):
    the constructor, [_update_obs_graph], [_update_comm_graph],
    [update_graphs] and [reset_graphs], followed by the properties of the
    two adjacency mappings.

    Conventions of the embedding.
    - A Python [dict] keeps its keys unique and in insertion order; it is
      an association list here ([Dict.t]), with [Dict.set] replacing an
      existing key in place and appending a new one, as Python does.  A
      dict received from a caller (the agent roster, a position snapshot)
      has pairwise distinct keys; theorems that need this say so with
      [Dict.wf].
    - Subscripting a dict with an absent key raises [KeyError]; code that
      subscripts runs in the error monad [result].
    - Agent positions are integer grid cells, so [dx**2 + dy**2] is an
      exact integer ([distance2]).  A radius is a binary64 number, and
      [np.sqrt(dx**2 + dy**2) < radius] is computed as the code computes
      it, in binary64 ([dist_lt]): the integer is converted, its rounded
      square root taken and compared with the radius.  The pool of the
      filling step is sorted by the squared distance, which orders it as
      the rounded roots do (the roots of integers below 2^52 are rounded
      to distinct numbers).
    - Rendering ([pygame]) state of the class is left out: no graph
      operation reads it. *)

From Stdlib Require Uint63.
From Stdlib Require Import Floats.
From Stdlib Require Import String List ZArith QArith Bool Lia.
From Stdlib Require Import Permutation Sorted.
From Stdlib Require Import Reals Qreals Lra.
Import ListNotations.

Local Open Scope Z_scope.

(** ** Exceptions and the error monad *)

Definition name := string.

Inductive exn : Type :=
| KeyError (key : name)
| InvalidInput.

Inductive result (A : Type) : Type :=
| Ok (a : A)
| Raise (e : exn).

Arguments Ok {A} a.
Arguments Raise {A} e.

Definition bind {A B : Type} (m : result A) (k : A -> result B) : result B :=
  match m with
  | Ok a => k a
  | Raise e => Raise e
  end.

Notation "x <- m ;; k" := (bind m (fun x => k))
  (at level 61, m at next level, right associativity).
Notation "' p <- m ;; k" := (bind m (fun x => match x with p => k end))
  (at level 61, p pattern, m at next level, right associativity).

(** [for x in xs: body], the loop state threaded through the body. *)
Fixpoint for_each {A S : Type} (xs : list A) (body : A -> S -> result S)
  (s : S) : result S :=
  match xs with
  | [] => Ok s
  | x :: xs' => s' <- body x s ;; for_each xs' body s'
  end.

(** ** Python dicts with string keys *)

Module Dict.

Definition t (V : Type) : Type := list (name * V).

Definition keys {V : Type} (d : t V) : list name := map fst d.

(** [d.items()] *)
Definition items {V : Type} (d : t V) : list (name * V) := d.

Fixpoint get {V : Type} (k : name) (d : t V) : option V :=
  match d with
  | [] => None
  | (k', v) :: d' => if String.eqb k' k then Some v else get k d'
  end.

(** [d[k] = v] *)
Fixpoint set {V : Type} (k : name) (v : V) (d : t V) : t V :=
  match d with
  | [] => [(k, v)]
  | (k', v') :: d' =>
      if String.eqb k' k then (k', v) :: d' else (k', v') :: set k v d'
  end.

(** [d[k]] *)
Definition getitem {V : Type} (d : t V) (k : name) : result V :=
  match get k d with
  | Some v => Ok v
  | None => Raise (KeyError k)
  end.

(** [{k: f(k) for k in ks}] *)
Definition comprehension {V : Type} (ks : list name) (f : name -> V) : t V :=
  fold_left (fun d k => set k (f k) d) ks [].

(** [d[k].append(x)] *)
Definition append {V : Type} (d : t (list V)) (k : name) (x : V)
  : result (t (list V)) :=
  row <- getitem d k ;; Ok (set k (row ++ [x]) d).

(** Keys pairwise distinct: what every Python dict satisfies. *)
Definition wf {V : Type} (d : t V) : Prop := NoDup (keys d).

End Dict.

(** ** Agents, configuration and the graph object *)

(** [agent.p_pos]: the grid cell of the agent. *)
Record Agent : Type := mkAgent { p_pos : Z * Z }.

(** The fields of [Config] that [Graph.__init__] reads. *)
Record Config : Type := mkConfig {
  size : Z;
  cfg_dynamic_obs : bool;
  cfg_dynamic_comms : bool;
  cfg_dynamic_comms_radius : float;
  cfg_dynamic_comms_enforce_minimum : Z;
  obs_radius : float;
  num_good_agents : Z;
  num_adversarial_agents : Z
}.

(** The attributes of a [Graph] instance ([self]). *)
Record Graph : Type := mkGraph {
  dim : Z;
  agents : Dict.t Agent;
  dynamic_obs : bool;
  dynamic_comms : bool;
  dynamic_comms_radius : float;
  dynamic_comms_enforce_minimum : Z;
  observation_radius : float;
  num_agents : Z;
  comm : Dict.t (list name);
  obs : Dict.t (list name)
}.

Definition set_agents (self : Graph) (a : Dict.t Agent) : Graph :=
  mkGraph (dim self) a (dynamic_obs self) (dynamic_comms self)
    (dynamic_comms_radius self) (dynamic_comms_enforce_minimum self)
    (observation_radius self) (num_agents self) (comm self) (obs self).

Definition set_comm (self : Graph) (c : Dict.t (list name)) : Graph :=
  mkGraph (dim self) (agents self) (dynamic_obs self) (dynamic_comms self)
    (dynamic_comms_radius self) (dynamic_comms_enforce_minimum self)
    (observation_radius self) (num_agents self) c (obs self).

Definition set_obs (self : Graph) (o : Dict.t (list name)) : Graph :=
  mkGraph (dim self) (agents self) (dynamic_obs self) (dynamic_comms self)
    (dynamic_comms_radius self) (dynamic_comms_enforce_minimum self)
    (observation_radius self) (num_agents self) (comm self) o.

(** ** Distances *)

(** [delta_x**2 + delta_y**2], from [agent] to [other_agent]. *)
Definition distance2 (agent other_agent : Agent) : Z :=
  let x_coord := fst (p_pos agent) in
  let y_coord := snd (p_pos agent) in
  let delta_x := fst (p_pos other_agent) - x_coord in
  let delta_y := snd (p_pos other_agent) - y_coord in
  delta_x ^ 2 + delta_y ^ 2.

(** The conversion of the integer [delta_x**2 + delta_y**2] to binary64
    that [np.sqrt] applies to its argument (exact below 2^53). *)
Definition Z2float (z : Z) : float := PrimFloat.of_uint63 (Uint63.of_Z z).

(** [distance = np.sqrt(d2)] followed by [distance < r], in binary64. *)
Definition dist_lt (d2 : Z) (r : float) : bool :=
  PrimFloat.ltb (PrimFloat.sqrt (Z2float d2)) r.

(** *** The real-number reading

    What "the Euclidean distance is strictly less than the radius" says of
    real numbers, to compare with what the code computes. *)

(** The rational number a finite binary64 number denotes. *)
Definition float_to_Q (f : float) : Q :=
  match Prim2SF f with
  | S754_finite s m e =>
      let n := if s then Zneg m else Zpos m in
      match e with
      | Zneg p => n # Pos.pow 2 p
      | _ => inject_Z (n * 2 ^ e)
      end
  | _ => 0%Q
  end.

Definition Qltb (x y : Q) : bool :=
  (Qnum x * QDen y <? Qnum y * QDen x)%Z.

(** The exact comparison of the real square root of [d2] with a rational
    [r]: the root of a non-negative integer is below [r] when [r] is
    positive and [d2 < r*r]. *)
Definition euclid_lt (d2 : Z) (r : Q) : bool :=
  Qltb 0 r && Qltb (inject_Z d2) (r * r).

(** A spec-level binary64 value that is not below zero. *)
Definition not_negative (f : spec_float) : Prop :=
  match f with
  | S754_infinity true | S754_finite true _ _ => False
  | _ => True
  end.

(** [p] holds of every integer from [0] up to [n - 1]. *)
Definition check_upto (n : positive) (p : Z -> bool) : bool :=
  snd (Pos.iter (fun st => (fst st + 1, snd st && p (fst st))) (0, true) n).

(** ** Sorting and slicing *)

(** [xs.sort(key=lambda x: x[0])]: Python's sort is stable, so its result
    is the one stable arrangement by key; insertion from the right builds
    it. *)
Fixpoint insert_by_key {A : Type} (x : Z * A) (xs : list (Z * A)) : list (Z * A) :=
  match xs with
  | [] => [x]
  | y :: ys => if fst x <=? fst y then x :: y :: ys else y :: insert_by_key x ys
  end.

Fixpoint sort_by_key {A : Type} (xs : list (Z * A)) : list (Z * A) :=
  match xs with
  | [] => []
  | x :: xs' => insert_by_key x (sort_by_key xs')
  end.


(** [xs[:n]]; a negative [n] counts from the end. *)
Definition slice_to {A : Type} (xs : list A) (n : Z) : list A :=
  if 0 <=? n then firstn (Z.to_nat n) xs
  else firstn (length xs - Z.to_nat (- n)) xs.

Definition len {A : Type} (xs : list A) : Z := Z.of_nat (length xs).

(** ** The class [Graph] *)

(** [Graph.__init__(config, agents)] *)
Definition Graph_init (config : Config) (agents : Dict.t Agent) : Graph :=
  let comm :=
    if negb (cfg_dynamic_comms config) then
      let all_agents := Dict.keys agents in
      Dict.comprehension (Dict.keys agents) (fun _ => all_agents)
    else
      Dict.comprehension (Dict.keys agents) (fun _ => [])
  in
  let obs := Dict.comprehension (Dict.keys agents) (fun _ => []) in
  mkGraph (size config) agents (cfg_dynamic_obs config)
    (cfg_dynamic_comms config) (cfg_dynamic_comms_radius config)
    (cfg_dynamic_comms_enforce_minimum config) (obs_radius config)
    (num_good_agents config + num_adversarial_agents config) comm obs.

(** The body of the inner loop of [_update_obs_graph]. *)
Definition obs_inner (self : Graph) (agent_name : name) (agent : Agent)
  (other : name * Agent) (obs : Dict.t (list name))
  : result (Dict.t (list name)) :=
  let '(other_agent_name, other_agent) := other in
  if negb (String.eqb other_agent_name agent_name) then
    let distance := distance2 agent other_agent in
    if dist_lt distance (observation_radius self)
    then Dict.append obs agent_name other_agent_name
    else Ok obs
  else Ok obs.

Definition _update_obs_graph (self : Graph) (agents : Dict.t Agent)
  : result Graph :=
  if dynamic_obs self then
    let obs0 := Dict.comprehension (Dict.keys agents) (fun _ => []) in
    obs' <- for_each (Dict.items agents)
              (fun '(agent_name, agent) obs =>
                 for_each (Dict.items agents)
                   (obs_inner self agent_name agent) obs)
              obs0 ;;
    Ok (set_obs self obs')
  else
    Ok self.

(** The body of the inner loop of [_update_comm_graph]; the loop state is
    [self.comm] and the local [distances_to_agents_not_added]. *)
Definition comm_inner (self : Graph) (agent_name : name) (agent : Agent)
  (other : name * Agent) (st : Dict.t (list name) * list (Z * name))
  : result (Dict.t (list name) * list (Z * name)) :=
  let '(other_agent_name, other_agent) := other in
  let '(comm, distances_to_agents_not_added) := st in
  if negb (String.eqb other_agent_name agent_name) then
    let distance := distance2 agent other_agent in
    if dist_lt distance (dynamic_comms_radius self)
    then comm' <- Dict.append comm agent_name other_agent_name ;;
         Ok (comm', distances_to_agents_not_added)
    else Ok (comm, distances_to_agents_not_added ++ [(distance, other_agent_name)])
  else Ok st.

(** The body of the outer loop of [_update_comm_graph]. *)
Definition comm_outer (self : Graph) (agents : Dict.t Agent)
  (a : name * Agent) (comm : Dict.t (list name))
  : result (Dict.t (list name)) :=
  let '(agent_name, agent) := a in
  '(comm1, distances_to_agents_not_added) <-
     for_each (Dict.items agents) (comm_inner self agent_name agent) (comm, []) ;;
  row <- Dict.getitem comm1 agent_name ;;
  if len row <? dynamic_comms_enforce_minimum self then
    let sorted := sort_by_key distances_to_agents_not_added in
    let amount_missing := dynamic_comms_enforce_minimum self - len row in
    for_each (slice_to sorted amount_missing)
      (fun '(_, other_agent_name) comm =>
         Dict.append comm agent_name other_agent_name)
      comm1
  else Ok comm1.

Definition _update_comm_graph (self : Graph) (agents : Dict.t Agent)
  : result Graph :=
  if dynamic_comms self then
    let comm0 := Dict.comprehension (Dict.keys agents) (fun _ => []) in
    comm' <- for_each (Dict.items agents) (comm_outer self agents) comm0 ;;
    Ok (set_comm self comm')
  else
    Ok self.

Definition update_graphs (self : Graph) (agents : Dict.t Agent)
  : result Graph :=
  let self := set_agents self agents in
  self <- _update_obs_graph self agents ;;
  _update_comm_graph self agents.

Definition reset_graphs (self : Graph) : Graph :=
  let comm :=
    if negb (dynamic_comms self) then
      let all_agents := Dict.keys (agents self) in
      Dict.comprehension (Dict.keys (agents self)) (fun _ => all_agents)
    else
      Dict.comprehension (Dict.keys (agents self)) (fun _ => [])
  in
  let self := set_comm self comm in
  set_obs self (Dict.comprehension (Dict.keys (agents self)) (fun _ => [])).

(** ** What the loops compute

    The functional reading of the two update loops, against which the
    loops are proved below ([_update_obs_graph_eq], [_update_comm_graph_eq],
    [update_graphs_eq]). *)

(** The names of the agents other than [agent_name] that lie within [r] of
    [agent], in the order of [others]. *)
Definition in_radius (r : float) (agent_name : name) (agent : Agent)
  (others : list (name * Agent)) : list name :=
  map fst
    (filter (fun o => negb (String.eqb (fst o) agent_name)
                      && dist_lt (distance2 agent (snd o)) r) others).

(** The agents other than [agent_name] that do not lie within [r], each
    with its (squared) distance, in the order of [others]. *)
Definition out_of_radius (r : float) (agent_name : name) (agent : Agent)
  (others : list (name * Agent)) : list (Z * name) :=
  map (fun o => (distance2 agent (snd o), fst o))
    (filter (fun o => negb (String.eqb (fst o) agent_name)
                      && negb (dist_lt (distance2 agent (snd o)) r)) others).

(** The names [_update_comm_graph] appends after the in-radius ones. *)
Definition fill (r : float) (minimum : Z) (agent_name : name) (agent : Agent)
  (others : list (name * Agent)) : list name :=
  let row := in_radius r agent_name agent others in
  if len row <? minimum then
    map snd (slice_to (sort_by_key (out_of_radius r agent_name agent others))
               (minimum - len row))
  else [].

(** The communication list of one agent after an update. *)
Definition comm_row (r : float) (minimum : Z) (agent_name : name) (agent : Agent)
  (others : list (name * Agent)) : list name :=
  let row := in_radius r agent_name agent others in
  if len row <? minimum then
    row ++ map snd (slice_to (sort_by_key (out_of_radius r agent_name agent others))
                      (minimum - len row))
  else row.

(** The observation graph an update builds from a snapshot. *)
Definition obs_graph_of (r : float) (agents : Dict.t Agent) : Dict.t (list name) :=
  map (fun kv => (fst kv, in_radius r (fst kv) (snd kv) agents)) agents.

(** The communication graph an update builds from a snapshot. *)
Definition comm_graph_of (r : float) (minimum : Z) (agents : Dict.t Agent)
  : Dict.t (list name) :=
  map (fun kv => (fst kv, comm_row r minimum (fst kv) (snd kv) agents)) agents.

(** The state [update_graphs] leaves. *)
Definition updated (self : Graph) (all : Dict.t Agent) : Graph :=
  mkGraph (dim self) all (dynamic_obs self) (dynamic_comms self)
    (dynamic_comms_radius self) (dynamic_comms_enforce_minimum self)
    (observation_radius self) (num_agents self)
    (if dynamic_comms self
     then comm_graph_of (dynamic_comms_radius self)
            (dynamic_comms_enforce_minimum self) all
     else comm self)
    (if dynamic_obs self
     then obs_graph_of (observation_radius self) all
     else obs self).

(** ** Reachable states *)

(** The states reached from construction by updates (each with a snapshot
    of distinct keys) and resets. *)
Inductive reachable (config : Config) (roster : Dict.t Agent) : Graph -> Prop :=
| reach_init : reachable config roster (Graph_init config roster)
| reach_update (g g' : Graph) (all : Dict.t Agent) :
    reachable config roster g -> Dict.wf all ->
    update_graphs g all = Ok g' -> reachable config roster g'
| reach_reset (g : Graph) :
    reachable config roster g -> reachable config roster (reset_graphs g).

(** No agent is listed in its own row. *)
Definition no_self_loop (graph : Dict.t (list name)) : Prop :=
  forall a row, Dict.get a graph = Some row -> ~ In a row.

(** The states reached when every snapshot passed to [update_graphs]
    carries exactly the agent ids of the construction roster, as the
    environment does, which passes the roster it was built with. *)
Inductive reachable_on (config : Config) (roster : Dict.t Agent) : Graph -> Prop :=
| reach_on_init : reachable_on config roster (Graph_init config roster)
| reach_on_update (g g' : Graph) (all : Dict.t Agent) :
    reachable_on config roster g -> Dict.wf all ->
    (forall k, In k (Dict.keys all) <-> In k (Dict.keys roster)) ->
    update_graphs g all = Ok g' -> reachable_on config roster g'
| reach_on_reset (g : Graph) :
    reachable_on config roster g -> reachable_on config roster (reset_graphs g).

(** [x] occurs in the list with [y] somewhere after it. *)
Inductive before {A : Type} (x y : A) : list A -> Prop :=
| before_here (l : list A) : In y l -> before x y (x :: l)
| before_later (z : A) (l : list A) : before x y l -> before x y (z :: l).

(** ** Reading the graphs back ([src/nepiada/env/nepiada.py])

    The environment reaches the graph object as [self.world.graph]; it is
    the argument [graph] here. *)

(** [nepiada.observe(agent_name)]:
    [np.array(self.world.graph.obs[agent_name])]. *)
Definition observe (graph : Graph) (agent_name : name) : result (list name) :=
  Dict.getitem (obs graph) agent_name.

(** The construction of [self.infos] in [nepiada.step]: one inner dict per
    agent of [self.agents], filled under the keys ["obs"] and ["comm"] from
    the two graphs.  In each assignment the right-hand side is evaluated
    before the target is subscripted. *)
Definition step_infos (graph : Graph) (agents : list name)
  : result (Dict.t (Dict.t (list name))) :=
  let infos := Dict.comprehension agents (fun _ => []) in
  for_each agents
    (fun agent_name infos =>
       observed <- Dict.getitem (obs graph) agent_name ;;
       inner <- Dict.getitem infos agent_name ;;
       let infos := Dict.set agent_name (Dict.set "obs"%string observed inner) infos in
       reachable_peers <- Dict.getitem (comm graph) agent_name ;;
       inner <- Dict.getitem infos agent_name ;;
       Ok (Dict.set agent_name (Dict.set "comm"%string reachable_peers inner) infos))
    infos.

(** The inner dict [step_infos] stores for an agent that is a key of both
    graphs. *)
Definition info_of (graph : Graph) (agent_name : name) : Dict.t (list name) :=
  [("obs"%string,
    match Dict.get agent_name (obs graph) with Some row => row | None => [] end);
   ("comm"%string,
    match Dict.get agent_name (comm graph) with Some row => row | None => [] end)].

(** ** Concrete rosters and configurations

    The three agents of the specification's scenarios (radius 2, minimum
    1), and a snapshot that lacks the third. *)

Local Open Scope string_scope.

Definition three_agents : Dict.t Agent :=
  [("agent0", mkAgent (0, 0)); ("agent1", mkAgent (1, 0));
   ("agent2", mkAgent (10, 10))].

Definition two_agents : Dict.t Agent :=
  [("agent0", mkAgent (0, 0)); ("agent1", mkAgent (1, 0))].

Definition scenario_config (dyn_obs dyn_comms : bool) : Config :=
  mkConfig 50 dyn_obs dyn_comms 2%float 1 2%float 3 0.

(** The binary64 number nearest to the square root of 2, which lies
    above the root; it prints as 1.4142135623730951. *)
Definition sqrt2_radius : float := 0x1.6a09e667f3bcdp+0%float.

(** Two agents on a diagonal, at Euclidean distance the square root of
    2. *)
Definition diagonal_agents : Dict.t Agent :=
  [("agent0", mkAgent (0, 0)); ("agent1", mkAgent (1, 1))].

(** Four agents, agent2 at Euclidean distance the square root of 2 from
    agent0. *)
Definition corner_agents : Dict.t Agent :=
  [("agent0", mkAgent (0, 0)); ("agent1", mkAgent (1, 0));
   ("agent2", mkAgent (1, 1)); ("agent3", mkAgent (5, 5))].

(** Both graphs dynamic, both radii [sqrt2_radius]. *)
Definition boundary_config (minimum : Z) : Config :=
  mkConfig 50 true true sqrt2_radius minimum sqrt2_radius 2 0.

(** Three agents with agent1 and agent2 at the same distance from
    agent0. *)
Definition tie_agents : Dict.t Agent :=
  [("agent0", mkAgent (0, 0)); ("agent1", mkAgent (3, 0));
   ("agent2", mkAgent (0, 3))].

(** The state an update with [three_agents] leaves when both graphs are
    dynamic: agent0 and agent1 observe each other, and agent2, with nobody
    in radius, is given its nearest agent as a communication peer. *)
Definition three_agents_updated : Graph :=
  mkGraph 50 three_agents true true 2%float 1 2%float 3
    [("agent0", ["agent1"]); ("agent1", ["agent0"]); ("agent2", ["agent1"])]
    [("agent0", ["agent1"]); ("agent1", ["agent0"]); ("agent2", [])].

(** The state an update with the partial snapshot [two_agents] leaves on
    the roster of three, both graphs dynamic. *)
Definition two_agents_updated : Graph :=
  mkGraph 50 two_agents true true 2%float 1 2%float 3
    [("agent0", ["agent1"]); ("agent1", ["agent0"])]
    [("agent0", ["agent1"]); ("agent1", ["agent0"])].

(** The state an update with [three_agents] leaves when observation is
    static and communication dynamic. *)
Definition static_obs_updated : Graph :=
  mkGraph 50 three_agents false true 2%float 1 2%float 3
    [("agent0", ["agent1"]); ("agent1", ["agent0"]); ("agent2", ["agent1"])]
    [("agent0", []); ("agent1", []); ("agent2", [])].

(** ** Scenarios of the specification, run on the model *)

Example scenario_A :
  update_graphs (Graph_init (scenario_config true false) three_agents) three_agents
  = Ok (mkGraph 50 three_agents true false 2%float 1 2%float 3
          [("agent0", ["agent0"; "agent1"; "agent2"]);
           ("agent1", ["agent0"; "agent1"; "agent2"]);
           ("agent2", ["agent0"; "agent1"; "agent2"])]
          [("agent0", ["agent1"]); ("agent1", ["agent0"]); ("agent2", [])]).
Proof. reflexivity. Qed.

Example scenario_B :
  update_graphs (Graph_init (scenario_config false true) three_agents) three_agents
  = Ok (mkGraph 50 three_agents false true 2%float 1 2%float 3
          [("agent0", ["agent1"]); ("agent1", ["agent0"]); ("agent2", ["agent1"])]
          [("agent0", []); ("agent1", []); ("agent2", [])]).
Proof. reflexivity. Qed.

(** At the radius [sqrt2_radius] the computed distance from agent0 to
    agent2 equals the radius: agent2 is not within it, and with minimum 1
    the list of agent0 needs no filling. *)
Example boundary_radius_rows :
  update_graphs
    (Graph_init (mkConfig 50 true true sqrt2_radius 1 sqrt2_radius 4 0)
       corner_agents) corner_agents
  = Ok (mkGraph 50 corner_agents true true sqrt2_radius 1 sqrt2_radius 4
          [("agent0", ["agent1"]); ("agent1", ["agent0"; "agent2"]);
           ("agent2", ["agent1"]); ("agent3", ["agent2"])]
          [("agent0", ["agent1"]); ("agent1", ["agent0"; "agent2"]);
           ("agent2", ["agent1"]); ("agent3", [])]).
Proof. reflexivity. Qed.

Local Close Scope string_scope.

(** ** Facts about dicts *)

Section DictFacts.

Context {V : Type}.
Implicit Types (d : Dict.t V) (k : name) (v : V).

Lemma get_set_same k v d : Dict.get k (Dict.set k v d) = Some v.
Proof.
  induction d as [|[k' v'] d IH]; simpl.
  - now rewrite String.eqb_refl.
  - destruct (String.eqb k' k) eqn:E; simpl; rewrite E; auto.
Qed.

Lemma get_set_other k k' v d :
  k <> k' -> Dict.get k' (Dict.set k v d) = Dict.get k' d.
Proof.
  intros Hne. induction d as [|[k0 v0] d IH]; simpl.
  - destruct (String.eqb_spec k k'); congruence.
  - destruct (String.eqb_spec k0 k) as [->|Hk]; simpl.
    + destruct (String.eqb_spec k k'); congruence.
    + now rewrite IH.
Qed.

Lemma set_set_same k v1 v2 d :
  Dict.set k v2 (Dict.set k v1 d) = Dict.set k v2 d.
Proof.
  induction d as [|[k' v'] d IH]; simpl.
  - now rewrite String.eqb_refl.
  - destruct (String.eqb k' k) eqn:E; simpl; rewrite E; congruence.
Qed.

Lemma set_get_id k v d : Dict.get k d = Some v -> Dict.set k v d = d.
Proof.
  induction d as [|[k' v'] d IH]; simpl; [discriminate|].
  destruct (String.eqb k' k); intros H.
  - congruence.
  - now rewrite IH.
Qed.

Lemma keys_set_present k v v0 d :
  Dict.get k d = Some v0 -> Dict.keys (Dict.set k v d) = Dict.keys d.
Proof.
  induction d as [|[k' v'] d IH]; simpl; [discriminate|].
  destruct (String.eqb k' k); intros H; simpl; [reflexivity|].
  now rewrite IH.
Qed.

Lemma set_fresh k v d :
  ~ In k (Dict.keys d) -> Dict.set k v d = d ++ [(k, v)].
Proof.
  induction d as [|[k' v'] d IH]; simpl; intros Hn; [reflexivity|].
  destruct (String.eqb_spec k' k) as [->|Hk].
  - exfalso; auto.
  - rewrite IH; auto.
Qed.

Lemma get_app_mid k v pre post :
  ~ In k (Dict.keys pre) -> Dict.get k (pre ++ (k, v) :: post) = Some v.
Proof.
  induction pre as [|[k' v'] pre IH]; simpl; intros Hn.
  - now rewrite String.eqb_refl.
  - destruct (String.eqb_spec k' k) as [->|Hk]; [exfalso; auto|].
    apply IH; auto.
Qed.

Lemma set_app_mid k v v0 pre post :
  ~ In k (Dict.keys pre) ->
  Dict.set k v (pre ++ (k, v0) :: post) = pre ++ (k, v) :: post.
Proof.
  induction pre as [|[k' v'] pre IH]; simpl; intros Hn.
  - now rewrite String.eqb_refl.
  - destruct (String.eqb_spec k' k) as [->|Hk]; [exfalso; auto|].
    rewrite IH; auto.
Qed.

Lemma get_In k v d : Dict.get k d = Some v -> In (k, v) d.
Proof.
  induction d as [|[k' v'] d IH]; simpl; [discriminate|].
  destruct (String.eqb_spec k' k) as [->|Hk]; intros H.
  - left; congruence.
  - right; auto.
Qed.

Lemma In_get k v d : Dict.wf d -> In (k, v) d -> Dict.get k d = Some v.
Proof.
  unfold Dict.wf. induction d as [|[k' v'] d IH]; simpl; [tauto|].
  intros Hnd [Heq|Hin]; inversion Hnd as [|? ? Hni Hnd']; subst.
  - inversion Heq; subst. now rewrite String.eqb_refl.
  - destruct (String.eqb_spec k' k) as [->|Hk]; [|auto].
    exfalso. apply Hni. change (In (fst (k, v)) (map fst d)).
    now apply in_map.
Qed.

Lemma fold_set_fresh (f : name -> V) ks :
  forall acc,
    NoDup ks -> (forall k, In k (Dict.keys acc) -> ~ In k ks) ->
    fold_left (fun d k => Dict.set k (f k) d) ks acc
    = acc ++ map (fun k => (k, f k)) ks.
Proof.
  induction ks as [|k ks IH]; simpl; intros acc Hnd Hdisj.
  - now rewrite app_nil_r.
  - inversion Hnd as [|? ? Hni Hnd']; subst.
    rewrite set_fresh by (intros Hin; apply (Hdisj k Hin); now left).
    rewrite IH; auto.
    + now rewrite <- app_assoc.
    + intros k'. unfold Dict.keys. rewrite map_app, in_app_iff. simpl.
      intros [Hin|[<-|[]]]; [|assumption].
      intros Hin'. apply (Hdisj k' Hin). now right.
Qed.

(** On distinct keys a comprehension lists its entries in order. *)
Lemma comprehension_map (f : name -> V) ks :
  NoDup ks -> Dict.comprehension ks f = map (fun k => (k, f k)) ks.
Proof.
  intros Hnd. unfold Dict.comprehension.
  rewrite fold_set_fresh; auto.
Qed.

End DictFacts.

(** ** The loops against their functional reading *)

Lemma obs_inner_loop (self : Graph) (a : name) (ag : Agent) others :
  forall obs row,
    Dict.get a obs = Some row ->
    for_each others (obs_inner self a ag) obs
    = Ok (Dict.set a (row ++ in_radius (observation_radius self) a ag others) obs).
Proof.
  induction others as [|[b bg] others IH]; intros obs row Hget.
  - unfold in_radius; simpl. now rewrite app_nil_r, set_get_id.
  - unfold in_radius in *. cbn [for_each obs_inner filter fst snd].
    destruct (negb (String.eqb b a)); cbn [andb bind].
    + destruct (dist_lt (distance2 ag bg) (observation_radius self)).
      * unfold Dict.append, Dict.getitem. rewrite Hget. cbn [bind].
        rewrite (IH _ (row ++ [b])) by apply get_set_same.
        rewrite set_set_same. cbn [map fst].
        now rewrite <- app_assoc.
      * now apply IH.
    + now apply IH.
Qed.

Lemma comm_inner_loop (self : Graph) (a : name) (ag : Agent) others :
  forall comm row not_added,
    Dict.get a comm = Some row ->
    for_each others (comm_inner self a ag) (comm, not_added)
    = Ok (Dict.set a (row ++ in_radius (dynamic_comms_radius self) a ag others) comm,
          not_added ++ out_of_radius (dynamic_comms_radius self) a ag others).
Proof.
  induction others as [|[b bg] others IH]; intros comm row na Hget.
  - unfold in_radius, out_of_radius; simpl.
    now rewrite !app_nil_r, set_get_id.
  - unfold in_radius, out_of_radius in *.
    cbn [for_each comm_inner filter fst snd].
    destruct (negb (String.eqb b a)); cbn [andb bind negb].
    + destruct (dist_lt (distance2 ag bg) (dynamic_comms_radius self));
        cbn [negb bind].
      * unfold Dict.append, Dict.getitem. rewrite Hget. cbn [bind].
        rewrite (IH _ (row ++ [b])) by apply get_set_same.
        rewrite set_set_same. cbn [map fst].
        now rewrite <- app_assoc.
      * rewrite (IH _ row) by assumption. cbn [map fst snd].
        now rewrite <- app_assoc.
    + now apply IH.
Qed.

(** A loop of [append]s on one key extends the list stored there. *)
Lemma append_loop (a : name) (xs : list (Z * name)) :
  forall (d : Dict.t (list name)) row,
    Dict.get a d = Some row ->
    for_each xs (fun '(_, other_agent_name) comm =>
                   Dict.append comm a other_agent_name) d
    = Ok (Dict.set a (row ++ map snd xs) d).
Proof.
  induction xs as [|[dist b] xs IH]; intros d row Hget.
  - simpl. now rewrite app_nil_r, set_get_id.
  - cbn [for_each]. unfold Dict.append at 1, Dict.getitem. rewrite Hget.
    cbn [bind].
    rewrite (IH _ (row ++ [b])) by apply get_set_same.
    rewrite set_set_same. cbn [map snd].
    now rewrite <- app_assoc.
Qed.

Lemma comm_outer_body (self : Graph) (all : Dict.t Agent) (a : name) (ag : Agent)
  (comm : Dict.t (list name)) :
  Dict.get a comm = Some [] ->
  comm_outer self all (a, ag) comm
  = Ok (Dict.set a (comm_row (dynamic_comms_radius self)
                      (dynamic_comms_enforce_minimum self) a ag all) comm).
Proof.
  intros Hget. unfold comm_outer, Dict.items.
  rewrite (comm_inner_loop self a ag all comm [] []) by assumption.
  cbn [bind app]. unfold Dict.getitem. rewrite get_set_same. cbn [bind].
  unfold comm_row.
  destruct (len _ <? _).
  - rewrite (append_loop a _ _ _ (get_set_same _ _ _)).
    now rewrite set_set_same.
  - reflexivity.
Qed.

(** A loop that fills, agent by agent, the empty row of each agent. *)
Lemma rows_loop {A : Type}
  (body : name * A -> Dict.t (list name) -> result (Dict.t (list name)))
  (F : name -> A -> list name) :
  (forall a ag d, Dict.get a d = Some [] ->
                  body (a, ag) d = Ok (Dict.set a (F a ag) d)) ->
  forall (rest : list (name * A)) (pre : Dict.t (list name)),
    NoDup (map fst rest) ->
    (forall k, In k (Dict.keys pre) -> ~ In k (map fst rest)) ->
    for_each rest body (pre ++ map (fun kv => (fst kv, [])) rest)
    = Ok (pre ++ map (fun kv => (fst kv, F (fst kv) (snd kv))) rest).
Proof.
  intros Hbody. induction rest as [|[a ag] rest IH]; intros pre Hnd Hdisj.
  - reflexivity.
  - inversion Hnd as [|? ? Hni Hnd']; subst.
    assert (Hpre : ~ In a (Dict.keys pre)).
    { intros Hin. apply (Hdisj a Hin). now left. }
    cbn [for_each map fst snd].
    rewrite Hbody by now apply get_app_mid.
    rewrite set_app_mid by assumption. cbn [bind].
    change (pre ++ (a, F a ag) :: ?l) with (pre ++ [(a, F a ag)] ++ l).
    rewrite !app_assoc. apply IH; [assumption|].
    intros k. unfold Dict.keys. rewrite map_app, in_app_iff. simpl.
    intros [Hin|[<-|[]]]; [|assumption].
    intros Hin'. apply (Hdisj k Hin). now right.
Qed.

Lemma comprehension_empty_rows {A : Type} (d : Dict.t A) :
  Dict.wf d ->
  Dict.comprehension (Dict.keys d) (fun _ => @nil name)
  = map (fun kv => (fst kv, [])) d.
Proof.
  intros Hwf. rewrite comprehension_map by assumption.
  unfold Dict.keys. now rewrite map_map.
Qed.

(** [_update_obs_graph] returns, and with distinct keys the observation
    graph it leaves is [obs_graph_of]. *)
Lemma _update_obs_graph_eq (self : Graph) (all : Dict.t Agent) :
  Dict.wf all ->
  _update_obs_graph self all
  = Ok (if dynamic_obs self
        then set_obs self (obs_graph_of (observation_radius self) all)
        else self).
Proof.
  intros Hwf. unfold _update_obs_graph.
  destruct (dynamic_obs self); [|reflexivity].
  rewrite comprehension_empty_rows by assumption. unfold Dict.items.
  rewrite (rows_loop _ (fun a ag => in_radius (observation_radius self) a ag all)
             (fun a ag d H => obs_inner_loop self a ag all d [] H) all [] Hwf)
    by (intros k []).
  reflexivity.
Qed.

Lemma _update_comm_graph_eq (self : Graph) (all : Dict.t Agent) :
  Dict.wf all ->
  _update_comm_graph self all
  = Ok (if dynamic_comms self
        then set_comm self (comm_graph_of (dynamic_comms_radius self)
                              (dynamic_comms_enforce_minimum self) all)
        else self).
Proof.
  intros Hwf. unfold _update_comm_graph.
  destruct (dynamic_comms self); [|reflexivity].
  rewrite comprehension_empty_rows by assumption. unfold Dict.items.
  pose proof (rows_loop _ (fun a ag => comm_row (dynamic_comms_radius self)
                                      (dynamic_comms_enforce_minimum self) a ag all)
             (fun a ag d H => comm_outer_body self all a ag d H) all [] Hwf) as Hloop.
  cbn [app] in Hloop. rewrite Hloop by (intros k []).
  reflexivity.
Qed.

Lemma update_graphs_eq (self : Graph) (all : Dict.t Agent) :
  Dict.wf all -> update_graphs self all = Ok (updated self all).
Proof.
  intros Hwf. unfold update_graphs.
  rewrite _update_obs_graph_eq by assumption. cbn [bind].
  rewrite _update_comm_graph_eq by assumption.
  unfold updated. destruct self as [d a dobs dcomm rc m ro n c o]; cbn.
  destruct dobs, dcomm; reflexivity.
Qed.

(** ** Distances: the binary64 comparison and the exact one *)

Lemma distance2_nonneg (a b : Agent) : 0 <= distance2 a b.
Proof. unfold distance2. cbv zeta. nia. Qed.

Lemma distance2_sym (a b : Agent) : distance2 a b = distance2 b a.
Proof. unfold distance2. cbv zeta. ring. Qed.

(** The order of binary64 numbers is transitive across [<] and [<=]. *)
Lemma SFltb_leb_trans (x y z : spec_float) :
  SFltb x y = true -> SFleb y z = true -> SFltb x z = true.
Proof.
  unfold SFltb, SFleb, SFcompare.
  destruct x as [sx|sx| |sx mx ex], y as [sy|sy| |sy my ey],
    z as [sz|sz| |sz mz ez];
    try destruct sx; try destruct sy; try destruct sz;
    try discriminate; try reflexivity;
    rewrite ?Pos.compare_cont_spec; simpl;
    destruct (Z.compare_spec ex ey), (Z.compare_spec ey ez),
      (Z.compare_spec ex ez);
    try destruct (Pos.compare_spec mx my);
    try destruct (Pos.compare_spec my mz);
    try destruct (Pos.compare_spec mx mz);
    simpl; try discriminate; try reflexivity; intros; subst; lia.
Qed.

(** A larger radius keeps every agent that was within the smaller one. *)
Lemma dist_lt_mono (d2 : Z) (r1 r2 : float) :
  PrimFloat.leb r1 r2 = true -> dist_lt d2 r1 = true -> dist_lt d2 r2 = true.
Proof.
  unfold dist_lt. rewrite !FloatAxioms.ltb_spec, FloatAxioms.leb_spec.
  intros Hle Hlt. eapply SFltb_leb_trans; eassumption.
Qed.

Lemma binary_round_aux_not_negative mx ex lx :
  not_negative (binary_round_aux prec emax false mx ex lx).
Proof.
  unfold binary_round_aux.
  destruct (shr_fexp prec emax mx ex lx) as [mrs' e'].
  destruct (shr_fexp prec emax _ e' loc_Exact) as [mrs'' e''].
  destruct (shr_m mrs''); simpl; auto.
  destruct (_ <=? _); simpl; auto.
Qed.

(** A binary64 square root is never below zero. *)
Lemma SFsqrt_not_negative (x : spec_float) :
  not_negative (SFsqrt prec emax x).
Proof.
  destruct x as [s|[|]| |[|] m e]; simpl; auto.
  destruct (SFsqrt_core_binary prec emax (Z.pos m) e) as [[mz ez] lz].
  apply binary_round_aux_not_negative.
Qed.

(** No distance is below a radius that is zero or negative. *)
Lemma dist_lt_nonpositive (d2 : Z) (r : float) :
  PrimFloat.leb r PrimFloat.zero = true -> dist_lt d2 r = false.
Proof.
  unfold dist_lt.
  rewrite FloatAxioms.ltb_spec, FloatAxioms.leb_spec, FloatAxioms.sqrt_spec.
  change (Prim2SF PrimFloat.zero) with (S754_zero false).
  unfold SF64sqrt.
  pose proof (SFsqrt_not_negative (Prim2SF (Z2float d2))) as H.
  revert H. generalize (SFsqrt prec emax (Prim2SF (Z2float d2))) as y.
  generalize (Prim2SF r) as q.
  intros q y. unfold SFltb, SFleb, SFcompare, not_negative.
  destruct q as [[|]|[|]| |[|] mq eq], y as [[|]|[|]| |[|] my ey];
    simpl; try discriminate; try reflexivity; try tauto.
Qed.

Lemma check_upto_spec (n : positive) (p : Z -> bool) :
  check_upto n p = true -> forall z, 0 <= z < Zpos n -> p z = true.
Proof.
  unfold check_upto.
  set (f := fun st : Z * bool => (fst st + 1, snd st && p (fst st))).
  assert (H : fst (Pos.iter f (0, true) n) = Zpos n
              /\ (snd (Pos.iter f (0, true) n) = true ->
                  forall z, 0 <= z < Zpos n -> p z = true)).
  { induction n as [|n [IH1 IH2]] using Pos.peano_ind.
    - simpl. split; [reflexivity|]. intros Hp z Hz.
      assert (z = 0) by lia. subst. exact Hp.
    - rewrite Pos.iter_succ. unfold f at 1. simpl. rewrite IH1.
      split; [lia|]. intros Hp z Hz.
      apply andb_true_iff in Hp. destruct Hp as [Hp1 Hp2].
      destruct (Z.eq_dec z (Zpos n)) as [->|Hne]; [assumption|].
      apply IH2; [assumption|lia]. }
  tauto.
Qed.

(** The root of a perfect square is computed exactly: a distance that is
    the integer radius is not below it.  Checked on every integer below
    2^20. *)
Lemma dist_lt_at_radius (rz : Z) :
  0 <= rz < 2 ^ 20 -> dist_lt (rz * rz) (Z2float rz) = false.
Proof.
  intros Hrz. apply negb_true_iff.
  apply (check_upto_spec (2 ^ 20)
           (fun rz => negb (dist_lt (rz * rz) (Z2float rz))));
    [vm_compute; reflexivity|exact Hrz].
Qed.

Lemma Qltb_lt (x y : Q) : Qltb x y = true <-> (x < y)%Q.
Proof. unfold Qltb, Qlt. apply Z.ltb_lt. Qed.

Lemma euclid_lt_iff (d2 : Z) (r : Q) :
  euclid_lt d2 r = true <-> (0 < r /\ inject_Z d2 < r * r)%Q.
Proof.
  unfold euclid_lt. rewrite andb_true_iff, !Qltb_lt. reflexivity.
Qed.

Lemma Q2R_inject_Z (z : Z) : Q2R (inject_Z z) = IZR z.
Proof. unfold Q2R, inject_Z. simpl. field. Qed.

(** [euclid_lt] decides the inequality between the real square root and
    the radius. *)
Lemma euclid_lt_sqrt (d2 : Z) (r : Q) :
  0 <= d2 ->
  (euclid_lt d2 r = true <-> (sqrt (IZR d2) < Q2R r)%R).
Proof.
  intros Hd. rewrite euclid_lt_iff.
  assert (Hd' : (0 <= IZR d2)%R) by now apply IZR_le.
  split.
  - intros [Hpos Hlt].
    apply Qlt_Rlt in Hpos. apply Qlt_Rlt in Hlt.
    rewrite Q2R_mult, Q2R_inject_Z in Hlt.
    replace (Q2R 0) with 0%R in Hpos by (unfold Q2R; simpl; field).
    rewrite <- (sqrt_square (Q2R r)) by lra.
    apply sqrt_lt_1_alt. lra.
  - intros Hlt.
    pose proof (sqrt_pos (IZR d2)) as Hs.
    assert (Hr : (0 < Q2R r)%R) by lra.
    split.
    + apply Rlt_Qlt. replace (Q2R 0) with 0%R by (unfold Q2R; simpl; field).
      exact Hr.
    + apply Rlt_Qlt. rewrite Q2R_mult, Q2R_inject_Z.
      rewrite <- (sqrt_sqrt (IZR d2)) at 1 by assumption.
      apply Rmult_le_0_lt_compat; assumption.
Qed.

(** ** Sorting by key *)

Lemma insert_by_key_perm {A : Type} (x : Z * A) xs :
  Permutation (insert_by_key x xs) (x :: xs).
Proof.
  induction xs as [|y ys IH]; simpl; [reflexivity|].
  destruct (fst x <=? fst y); [reflexivity|].
  rewrite IH. apply perm_swap.
Qed.

Lemma sort_by_key_perm {A : Type} (xs : list (Z * A)) :
  Permutation (sort_by_key xs) xs.
Proof.
  induction xs as [|x xs IH]; simpl; [reflexivity|].
  rewrite insert_by_key_perm. now apply perm_skip.
Qed.




Lemma slice_to_nonneg {A : Type} (xs : list A) (n : Z) :
  0 <= n -> slice_to xs n = firstn (Z.to_nat n) xs.
Proof.
  intros Hn. unfold slice_to.
  destruct (Z.leb_spec 0 n); [reflexivity|lia].
Qed.

Lemma NoDup_firstn {A : Type} (n : nat) (l : list A) :
  NoDup l -> NoDup (firstn n l).
Proof.
  intros Hnd. rewrite <- (firstn_skipn n l) in Hnd.
  eapply NoDup_app_remove_r; eassumption.
Qed.

Lemma In_firstn {A : Type} (n : nat) (l : list A) (x : A) :
  In x (firstn n l) -> In x l.
Proof.
  intros Hin. rewrite <- (firstn_skipn n l). apply in_or_app. now left.
Qed.

(** ** The rows of one agent *)

Lemma in_radius_In (r : float) (a : name) (ag : Agent) all (b : name) :
  In b (in_radius r a ag all) <->
  exists bg, In (b, bg) all /\ b <> a /\ dist_lt (distance2 ag bg) r = true.
Proof.
  unfold in_radius. rewrite in_map_iff. split.
  - intros [[b' bg] [Heq Hin]]. simpl in Heq. subst b'.
    apply filter_In in Hin. destruct Hin as [Hin Htest].
    apply andb_true_iff in Htest. destruct Htest as [Hne Hd]. simpl in *.
    exists bg. repeat split; auto.
    intros ->. now rewrite String.eqb_refl in Hne.
  - intros [bg [Hin [Hne Hd]]]. exists (b, bg). split; [reflexivity|].
    apply filter_In. split; [assumption|]. simpl.
    apply andb_true_iff. split; [|assumption].
    destruct (String.eqb_spec b a); [contradiction|reflexivity].
Qed.

Lemma out_of_radius_In (r : float) (a : name) (ag : Agent) all (d : Z) (b : name) :
  In (d, b) (out_of_radius r a ag all) <->
  exists bg, In (b, bg) all /\ b <> a
             /\ dist_lt (distance2 ag bg) r = false /\ d = distance2 ag bg.
Proof.
  unfold out_of_radius. rewrite in_map_iff. split.
  - intros [[b' bg] [Heq Hin]]. simpl in Heq. inversion Heq; subst.
    apply filter_In in Hin. destruct Hin as [Hin Htest].
    apply andb_true_iff in Htest. destruct Htest as [Hne Hd]. simpl in *.
    exists bg. repeat split; auto.
    + intros ->. now rewrite String.eqb_refl in Hne.
    + now apply negb_true_iff.
  - intros [bg [Hin [Hne [Hd ->]]]]. exists (b, bg). split; [reflexivity|].
    apply filter_In. split; [assumption|]. simpl.
    apply andb_true_iff. split.
    + destruct (String.eqb_spec b a); [contradiction|reflexivity].
    + now rewrite Hd.
Qed.

Lemma NoDup_map_fst_filter {A : Type} (f : name * A -> bool) (l : list (name * A)) :
  NoDup (map fst l) -> NoDup (map fst (filter f l)).
Proof.
  induction l as [|[k v] l IH]; simpl; intros Hnd; [constructor|].
  inversion Hnd as [|? ? Hni Hnd']; subst.
  destruct (f (k, v)); simpl; [|auto].
  constructor; [|auto].
  intros Hin. apply Hni. apply in_map_iff in Hin.
  destruct Hin as [x [Hx Hin]]. apply filter_In in Hin.
  apply in_map_iff. exists x. tauto.
Qed.

Lemma in_radius_NoDup (r : float) (a : name) (ag : Agent) all :
  Dict.wf all -> NoDup (in_radius r a ag all).
Proof. intros Hwf. now apply NoDup_map_fst_filter. Qed.

Lemma out_of_radius_NoDup (r : float) (a : name) (ag : Agent) all :
  Dict.wf all -> NoDup (map snd (out_of_radius r a ag all)).
Proof.
  intros Hwf. unfold out_of_radius. rewrite map_map. simpl.
  now apply NoDup_map_fst_filter.
Qed.

(** Among distinct keys, exactly one entry carries the name [a]. *)
Lemma others_length {A : Type} (a : name) (ag : A) (all : Dict.t A) :
  Dict.wf all -> In (a, ag) all ->
  S (length (filter (fun o => negb (String.eqb (fst o) a)) all)) = length all.
Proof.
  unfold Dict.wf. induction all as [|[k v] all IH]; simpl; [tauto|].
  intros Hnd Hin. inversion Hnd as [|? ? Hni Hnd']; subst.
  destruct (String.eqb_spec k a) as [->|Hk]; simpl.
  - f_equal.
    rewrite forallb_filter_id; [reflexivity|].
    apply forallb_forall. intros [k' v'] Hin'. simpl.
    destruct (String.eqb_spec k' a) as [->|]; [|reflexivity].
    exfalso. apply Hni. change (In (fst (a, v')) (map fst all)).
    now apply in_map.
  - f_equal. apply IH; [assumption|].
    destruct Hin as [Heq|Hin]; [congruence|assumption].
Qed.

Lemma radius_partition_length (r : float) (a : name) (ag : Agent) all :
  (length (in_radius r a ag all) + length (out_of_radius r a ag all))%nat
  = length (filter (fun o => negb (String.eqb (fst o) a)) all).
Proof.
  unfold in_radius, out_of_radius. rewrite !length_map.
  induction all as [|[b bg] all IH]; simpl; [reflexivity|].
  destruct (negb (String.eqb b a)); simpl; [|assumption].
  destruct (dist_lt (distance2 ag bg) r); simpl; lia.
Qed.

Lemma get_map_rows {A B : Type} (F : name -> A -> B) (all : Dict.t A) a ag :
  Dict.wf all -> In (a, ag) all ->
  Dict.get a (map (fun kv => (fst kv, F (fst kv) (snd kv))) all) = Some (F a ag).
Proof.
  intros Hwf Hin. apply In_get.
  - unfold Dict.wf, Dict.keys. rewrite map_map. exact Hwf.
  - apply in_map_iff. exists (a, ag). split; [reflexivity|assumption].
Qed.

Lemma get_map_rows_inv {A B : Type} (F : name -> A -> B) (all : Dict.t A) a row :
  Dict.get a (map (fun kv => (fst kv, F (fst kv) (snd kv))) all) = Some row ->
  exists ag, In (a, ag) all /\ row = F a ag.
Proof.
  intros Hget. apply get_In in Hget. apply in_map_iff in Hget.
  destruct Hget as [[a' ag] [Heq Hin]]. simpl in Heq. inversion Heq; subst.
  now exists ag.
Qed.

Lemma keys_map_rows {A B : Type} (F : name -> A -> B) (all : Dict.t A) :
  Dict.keys (map (fun kv => (fst kv, F (fst kv) (snd kv))) all) = Dict.keys all.
Proof. unfold Dict.keys. now rewrite map_map. Qed.

Lemma In_keys {A : Type} (a : name) (ag : A) (all : Dict.t A) :
  In (a, ag) all -> In a (Dict.keys all).
Proof. intros Hin. change a with (fst (a, ag)). now apply in_map. Qed.

Lemma get_fold_set {V : Type} (f : name -> V) (a : name) ks :
  forall acc,
    In a ks \/ Dict.get a acc = Some (f a) ->
    Dict.get a (fold_left (fun d k => Dict.set k (f k) d) ks acc) = Some (f a).
Proof.
  induction ks as [|k ks IH]; simpl; intros acc H.
  - destruct H as [[]|H]; exact H.
  - apply IH. destruct (String.eqb_spec k a) as [->|Hk].
    + right. apply get_set_same.
    + destruct H as [[Heq|Hin]|Hget]; [contradiction|now left|].
      right. now rewrite get_set_other.
Qed.

Lemma get_comprehension {V : Type} (f : name -> V) (a : name) ks :
  In a ks -> Dict.get a (Dict.comprehension ks f) = Some (f a).
Proof. intros Hin. apply get_fold_set. now left. Qed.

Lemma get_fold_set_absent {V : Type} (f : name -> V) (a : name) ks :
  forall acc,
    ~ In a ks -> Dict.get a acc = None ->
    Dict.get a (fold_left (fun d k => Dict.set k (f k) d) ks acc) = None.
Proof.
  induction ks as [|k ks IH]; simpl; intros acc Hni Hget; [assumption|].
  apply IH; [tauto|]. rewrite get_set_other; [assumption|].
  intros ->. tauto.
Qed.

Lemma get_comprehension_absent {V : Type} (f : name -> V) (a : name) ks :
  ~ In a ks -> Dict.get a (Dict.comprehension ks f) = None.
Proof. intros Hni. now apply get_fold_set_absent. Qed.

(** ** The filling step of the communication rows *)

Lemma comm_row_fill r m a ag all :
  comm_row r m a ag all = in_radius r a ag all ++ fill r m a ag all.
Proof.
  unfold comm_row, fill. cbv zeta.
  destruct (len _ <? m); [reflexivity|now rewrite app_nil_r].
Qed.

Lemma fill_firstn r m a ag all :
  len (in_radius r a ag all) < m ->
  fill r m a ag all
  = map snd (firstn (Z.to_nat (m - len (in_radius r a ag all)))
               (sort_by_key (out_of_radius r a ag all))).
Proof.
  intros Hlt. unfold fill. cbv zeta.
  destruct (Z.ltb_spec (len (in_radius r a ag all)) m); [|lia].
  rewrite slice_to_nonneg by lia. reflexivity.
Qed.

Lemma fill_nil r m a ag all :
  m <= len (in_radius r a ag all) -> fill r m a ag all = [].
Proof.
  intros Hle. unfold fill. cbv zeta.
  destruct (Z.ltb_spec (len (in_radius r a ag all)) m); [lia|reflexivity].
Qed.

Lemma fill_In_out r m a ag all b :
  In b (fill r m a ag all) ->
  exists d, In (d, b) (out_of_radius r a ag all).
Proof.
  destruct (Z.lt_ge_cases (len (in_radius r a ag all)) m) as [Hlt|Hge].
  - rewrite fill_firstn by assumption. intros Hin.
    apply in_map_iff in Hin. destruct Hin as [[d b'] [Heq Hin]].
    simpl in Heq. subst b'. exists d.
    apply In_firstn in Hin.
    eapply Permutation_in; [apply sort_by_key_perm|exact Hin].
  - rewrite fill_nil by assumption. intros [].
Qed.

Lemma fill_NoDup r m a ag all :
  Dict.wf all -> NoDup (fill r m a ag all).
Proof.
  intros Hwf.
  destruct (Z.lt_ge_cases (len (in_radius r a ag all)) m) as [Hlt|Hge].
  - rewrite fill_firstn by assumption. rewrite <- firstn_map.
    apply NoDup_firstn.
    eapply Permutation_NoDup;
      [apply Permutation_map; symmetry; apply sort_by_key_perm|].
    now apply out_of_radius_NoDup.
  - rewrite fill_nil by assumption. constructor.
Qed.

Lemma fill_length r m a ag all :
  len (in_radius r a ag all) < m ->
  len (fill r m a ag all)
  = Z.min (m - len (in_radius r a ag all)) (len (out_of_radius r a ag all)).
Proof.
  intros Hlt. rewrite fill_firstn by assumption. unfold len in *.
  rewrite length_map, length_firstn.
  rewrite (Permutation_length (sort_by_key_perm _)). lia.
Qed.

(** The pool of agents out of radius counts everyone but [a] and the
    agents in radius. *)
Lemma out_of_radius_length r a ag (all : Dict.t Agent) :
  Dict.wf all -> In (a, ag) all ->
  len (out_of_radius r a ag all) = len all - 1 - len (in_radius r a ag all).
Proof.
  intros Hwf Hin. unfold len.
  pose proof (radius_partition_length r a ag all) as Hp.
  pose proof (others_length a ag all Hwf Hin) as Ho. lia.
Qed.

Lemma comm_row_length r m a ag (all : Dict.t Agent) :
  Dict.wf all -> In (a, ag) all ->
  len (comm_row r m a ag all)
  = Z.max (len (in_radius r a ag all)) (Z.min m (len all - 1)).
Proof.
  intros Hwf Hin. rewrite comm_row_fill. unfold len at 1.
  rewrite length_app, Nat2Z.inj_add. fold (len (in_radius r a ag all)).
  fold (len (fill r m a ag all)).
  pose proof (out_of_radius_length r a ag all Hwf Hin) as Hout.
  assert (Hk : 0 <= len (out_of_radius r a ag all)) by (unfold len; lia).
  destruct (Z.lt_ge_cases (len (in_radius r a ag all)) m) as [Hlt|Hge].
  - rewrite fill_length by assumption. lia.
  - rewrite fill_nil by assumption. unfold len at 2. simpl. lia.
Qed.

(** The same name carries the same agent. *)
Lemma wf_functional {A : Type} (all : Dict.t A) a x y :
  Dict.wf all -> In (a, x) all -> In (a, y) all -> x = y.
Proof.
  intros Hwf Hx Hy.
  apply (In_get _ _ _ Hwf) in Hx. apply (In_get _ _ _ Hwf) in Hy. congruence.
Qed.


(** ** The concrete rosters are well formed *)

Lemma wf_three_agents : Dict.wf three_agents.
Proof.
  unfold Dict.wf, three_agents; simpl.
  repeat constructor; simpl; intuition discriminate.
Qed.

Lemma wf_two_agents : Dict.wf two_agents.
Proof.
  unfold Dict.wf, two_agents; simpl.
  repeat constructor; simpl; intuition discriminate.
Qed.

Lemma three_agents_updated_eq :
  update_graphs (Graph_init (scenario_config true true) three_agents) three_agents
  = Ok three_agents_updated.
Proof. reflexivity. Qed.

Lemma two_agents_updated_eq :
  update_graphs (Graph_init (scenario_config true true) three_agents) two_agents
  = Ok two_agents_updated.
Proof. reflexivity. Qed.

Lemma static_obs_updated_eq :
  update_graphs (Graph_init (scenario_config false true) three_agents) three_agents
  = Ok static_obs_updated.
Proof. reflexivity. Qed.

(** ** Snapshot validation (C1) *)

(** C1, as stated, fails: [update_graphs] has no check of the snapshot
    against the roster.  On the roster agent0, agent1, agent2 (both graphs
    dynamic) a snapshot that lacks agent2 is accepted: the call returns
    normally, not with [InvalidInput], and both graphs are rebuilt over the
    two remaining agents. *)
Lemma update_graphs_accepts_partial_snapshot :
  In "agent2"%string
    (Dict.keys (agents (Graph_init (scenario_config true true) three_agents)))
  /\ ~ In "agent2"%string (Dict.keys two_agents)
  /\ update_graphs (Graph_init (scenario_config true true) three_agents) two_agents
     <> Raise InvalidInput
  /\ update_graphs (Graph_init (scenario_config true true) three_agents) two_agents
     = Ok (mkGraph 50 two_agents true true 2%float 1 2%float 3
             [("agent0", ["agent1"]); ("agent1", ["agent0"])]%string
             [("agent0", ["agent1"]); ("agent1", ["agent0"])]%string)
  /\ obs (Graph_init (scenario_config true true) three_agents)
     = [("agent0", []); ("agent1", []); ("agent2", [])]%string
  /\ comm (Graph_init (scenario_config true true) three_agents)
     = [("agent0", []); ("agent1", []); ("agent2", [])]%string.
Proof.
  split; [simpl; tauto|].
  split; [simpl; intuition discriminate|].
  split; [discriminate|].
  repeat split.
Qed.

(** C1, amended: every call of [update_graphs] returns normally, whatever
    the key set of the snapshot; the snapshot becomes the stored roster, a
    dynamic graph is rebuilt with exactly the snapshot's agent ids as its
    keys, and a static graph is left as it was. *)
Theorem update_graphs_returns (self : Graph) (all : Dict.t Agent) :
  Dict.wf all ->
  exists g',
    update_graphs self all = Ok g'
    /\ agents g' = all
    /\ (dynamic_obs self = true -> Dict.keys (obs g') = Dict.keys all)
    /\ (dynamic_obs self = false -> obs g' = obs self)
    /\ (dynamic_comms self = true -> Dict.keys (comm g') = Dict.keys all)
    /\ (dynamic_comms self = false -> comm g' = comm self).
Proof.
  intros Hwf. exists (updated self all).
  split; [now apply update_graphs_eq|].
  unfold updated; cbn [agents obs comm].
  split; [reflexivity|].
  repeat split; intros ->; try reflexivity.
  - apply (keys_map_rows (fun a ag => in_radius _ a ag all)).
  - apply (keys_map_rows (fun a ag => comm_row _ _ a ag all)).
Qed.

Lemma update_graphs_returns_witness :
  Dict.wf two_agents
  /\ exists g',
      update_graphs (Graph_init (scenario_config true true) three_agents) two_agents
      = Ok g'
      /\ agents g' = two_agents
      /\ (dynamic_obs (Graph_init (scenario_config true true) three_agents) = true ->
          Dict.keys (obs g') = Dict.keys two_agents)
      /\ (dynamic_obs (Graph_init (scenario_config true true) three_agents) = false ->
          obs g' = obs (Graph_init (scenario_config true true) three_agents))
      /\ (dynamic_comms (Graph_init (scenario_config true true) three_agents) = true ->
          Dict.keys (comm g') = Dict.keys two_agents)
      /\ (dynamic_comms (Graph_init (scenario_config true true) three_agents) = false ->
          comm g' = comm (Graph_init (scenario_config true true) three_agents)).
Proof.
  split; [exact wf_two_agents|].
  exact (update_graphs_returns
           (Graph_init (scenario_config true true) three_agents) two_agents
           wf_two_agents).
Defined.

(** ** Static communication (C2, C3) *)

(** C2 at the roster agent0, agent1, agent2 with [dynamic_comms] false:
    after construction, after an update and after a reset, the
    communication list of every agent is the whole roster, the agent
    itself included, where the claim has the roster without the agent. *)
Theorem static_comm_rows_list_whole_roster :
  comm (Graph_init (scenario_config true false) three_agents)
  = [("agent0", ["agent0"; "agent1"; "agent2"]);
     ("agent1", ["agent0"; "agent1"; "agent2"]);
     ("agent2", ["agent0"; "agent1"; "agent2"])]%string
  /\ (exists g',
        update_graphs (Graph_init (scenario_config true false) three_agents)
          three_agents = Ok g'
        /\ comm g' = comm (Graph_init (scenario_config true false) three_agents))
  /\ comm (reset_graphs (Graph_init (scenario_config true false) three_agents))
     = comm (Graph_init (scenario_config true false) three_agents).
Proof.
  split; [reflexivity|]. split; [|reflexivity].
  eexists. split; reflexivity.
Qed.

(** C3 at the same input: with [dynamic_comms] false, agent0 is a member
    of its own communication list from construction on. *)
Theorem static_comm_self_loop :
  exists row,
    Dict.get "agent0"%string
      (comm (Graph_init (scenario_config true false) three_agents)) = Some row
    /\ In "agent0"%string row.
Proof.
  eexists. split; [reflexivity|]. simpl. tauto.
Qed.

(** ** Dynamic communication (C4, C10) *)

Lemma comm_after_update (self : Graph) (all : Dict.t Agent) a ag :
  Dict.wf all -> dynamic_comms self = true -> In (a, ag) all ->
  Dict.get a (comm (updated self all))
  = Some (comm_row (dynamic_comms_radius self)
            (dynamic_comms_enforce_minimum self) a ag all).
Proof.
  intros Hwf Hdyn Hin. unfold updated; cbn [comm]. rewrite Hdyn.
  now apply (get_map_rows (fun a ag => comm_row _ _ a ag all)).
Qed.




(** C10, as stated, fails when the number of agents strictly within the
    radius is counted on the real Euclidean distance: with the radius
    [sqrt2_radius], agents at (0,0) and (1,1) and minimum 0, one agent is
    strictly within the radius of agent0 (the root of 2 is below the
    radius), so the stated length is [max 1 (min 0 1) = 1]; the computed
    distance equals the radius, and the list of agent0 is empty. *)
Lemma comm_length_fails_on_real_count :
  update_graphs (Graph_init (boundary_config 0) diagonal_agents) diagonal_agents
  = Ok (mkGraph 50 diagonal_agents true true sqrt2_radius 0 sqrt2_radius 2
          [("agent0", []); ("agent1", [])]%string
          [("agent0", []); ("agent1", [])]%string)
  /\ Rlt (sqrt (IZR (distance2 (mkAgent (0, 0)) (mkAgent (1, 1)))))
       (Q2R (float_to_Q sqrt2_radius))
  /\ len (filter
            (fun o => negb (String.eqb (fst o) "agent0")
                      && euclid_lt (distance2 (mkAgent (0, 0)) (snd o))
                           (float_to_Q sqrt2_radius)) diagonal_agents)
     = 1
  /\ len (@nil name)
     <> Z.max
          (len (filter
                  (fun o => negb (String.eqb (fst o) "agent0")
                            && euclid_lt (distance2 (mkAgent (0, 0)) (snd o))
                                 (float_to_Q sqrt2_radius)) diagonal_agents))
          (Z.min 0 (len diagonal_agents - 1)).
Proof.
  split; [reflexivity|]. split; [|split].
  - apply euclid_lt_sqrt; [apply distance2_nonneg|]. vm_compute. reflexivity.
  - vm_compute. reflexivity.
  - vm_compute. discriminate.
Qed.

(** C10, amended: with [dynamic_comms] true, after an update the
    communication list of every agent [a] has no duplicates, holds only
    agent ids of the snapshot other than [a], and has length
    [max k (min dynamic_comms_enforce_minimum (N - 1))], with [N] the
    number of agents of the snapshot and [k] the number of other agents
    whose computed distance, the binary64 value of
    [np.sqrt(dx**2 + dy**2)], is strictly below [dynamic_comms_radius]. *)
Theorem comm_row_after_update (self : Graph) (all : Dict.t Agent)
  (a : name) (ag : Agent) :
  Dict.wf all -> dynamic_comms self = true -> In (a, ag) all ->
  exists g' row,
    update_graphs self all = Ok g'
    /\ Dict.get a (comm g') = Some row
    /\ NoDup row
    /\ (forall b, In b row -> In b (Dict.keys all) /\ b <> a)
    /\ len row
       = Z.max
           (len (filter
                   (fun o => negb (String.eqb (fst o) a)
                             && PrimFloat.ltb
                                  (PrimFloat.sqrt
                                     (Z2float (distance2 ag (snd o))))
                                  (dynamic_comms_radius self)) all))
           (Z.min (dynamic_comms_enforce_minimum self) (len all - 1)).
Proof.
  intros Hwf Hdyn Hin.
  set (r := dynamic_comms_radius self).
  set (m := dynamic_comms_enforce_minimum self).
  exists (updated self all), (comm_row r m a ag all).
  split; [now apply update_graphs_eq|].
  split; [now apply comm_after_update|].
  split; [|split].
  - rewrite comm_row_fill. apply NoDup_app.
    + now apply in_radius_NoDup.
    + now apply fill_NoDup.
    + intros b Hb Hfill. apply in_radius_In in Hb.
      destruct Hb as [bg [Hb [_ Hd]]].
      apply fill_In_out in Hfill. destruct Hfill as [d Hout].
      apply out_of_radius_In in Hout.
      destruct Hout as [bg' [Hb' [_ [Hd' _]]]].
      rewrite (wf_functional all b bg bg' Hwf Hb Hb') in Hd. congruence.
  - intros b Hb. rewrite comm_row_fill in Hb. apply in_app_or in Hb.
    destruct Hb as [Hb|Hb].
    + apply in_radius_In in Hb. destruct Hb as [bg [Hb [Hne _]]].
      split; [now apply (In_keys b bg)|assumption].
    + apply fill_In_out in Hb. destruct Hb as [d Hout].
      apply out_of_radius_In in Hout. destruct Hout as [bg [Hb [Hne _]]].
      split; [now apply (In_keys b bg)|assumption].
  - rewrite comm_row_length by assumption.
    unfold in_radius, len, dist_lt. now rewrite length_map.
Qed.

Lemma comm_row_after_update_witness :
  Dict.wf three_agents
  /\ dynamic_comms (Graph_init (scenario_config false true) three_agents) = true
  /\ In ("agent2"%string, mkAgent (10, 10)) three_agents
  /\ exists g' row,
      update_graphs (Graph_init (scenario_config false true) three_agents)
        three_agents = Ok g'
      /\ Dict.get "agent2"%string (comm g') = Some row
      /\ NoDup row
      /\ (forall b, In b row ->
            In b (Dict.keys three_agents) /\ b <> "agent2"%string)
      /\ len row
         = Z.max
             (len (filter
                     (fun o => negb (String.eqb (fst o) "agent2")
                               && PrimFloat.ltb
                                    (PrimFloat.sqrt
                                       (Z2float
                                          (distance2 (mkAgent (10, 10)) (snd o))))
                                    2%float) three_agents))
             (Z.min 1 (len three_agents - 1)).
Proof.
  split; [exact wf_three_agents|].
  split; [reflexivity|].
  split; [simpl; tauto|].
  exact (comm_row_after_update
           (Graph_init (scenario_config false true) three_agents) three_agents
           "agent2"%string (mkAgent (10, 10))
           wf_three_agents eq_refl
           (or_intror (or_intror (or_introl eq_refl)))).
Defined.

(** ** Dynamic observation (C5, C8) *)

Lemma obs_after_update (self : Graph) (all : Dict.t Agent) a ag :
  Dict.wf all -> dynamic_obs self = true -> In (a, ag) all ->
  Dict.get a (obs (updated self all))
  = Some (in_radius (observation_radius self) a ag all).
Proof.
  intros Hwf Hdyn Hin. unfold updated; cbn [obs]. rewrite Hdyn.
  now apply (get_map_rows (fun a ag => in_radius _ a ag all)).
Qed.

(** C5, as stated, fails: membership does not follow the real Euclidean
    distance at the boundary.  With [observation_radius = sqrt2_radius]
    and agents at (0,0) and (1,1), the Euclidean distance, the root of 2,
    is strictly below the radius, yet agent1 is not observed by agent0
    (nor agent0 by agent1): the computed root is rounded to the radius
    itself. *)
Lemma euclidean_distance_below_radius_not_observed :
  Rlt (sqrt (IZR (distance2 (mkAgent (0, 0)) (mkAgent (1, 1)))))
    (Q2R (float_to_Q sqrt2_radius))
  /\ PrimFloat.sqrt (Z2float (distance2 (mkAgent (0, 0)) (mkAgent (1, 1))))
     = sqrt2_radius
  /\ update_graphs (Graph_init (boundary_config 0) diagonal_agents) diagonal_agents
     = Ok (mkGraph 50 diagonal_agents true true sqrt2_radius 0 sqrt2_radius 2
             [("agent0", []); ("agent1", [])]%string
             [("agent0", []); ("agent1", [])]%string).
Proof.
  split; [|split; reflexivity].
  apply euclid_lt_sqrt; [apply distance2_nonneg|]. vm_compute. reflexivity.
Qed.

(** C5, amended: with [dynamic_obs] true, after an update with snapshot
    [all], for distinct agents [a] and [b] of the snapshot, [b] is in the
    observation list of [a] exactly when the distance as the code computes
    it, the binary64 value of [np.sqrt(dx**2 + dy**2)], is strictly below
    [observation_radius]; the list holds nothing but such agents, and the
    graph is rebuilt from the snapshot: it is the same from whatever
    earlier state the update starts. *)
Theorem obs_graph_rebuilt (self : Graph) (all : Dict.t Agent) :
  Dict.wf all -> dynamic_obs self = true ->
  exists g',
    update_graphs self all = Ok g'
    /\ Dict.keys (obs g') = Dict.keys all
    /\ (forall a ag, In (a, ag) all ->
          exists row,
            Dict.get a (obs g') = Some row
            /\ (forall b bg, In (b, bg) all -> a <> b ->
                  (In b row <->
                   PrimFloat.ltb
                     (PrimFloat.sqrt (Z2float (distance2 ag bg)))
                     (observation_radius self) = true))
            /\ (forall b, In b row -> b <> a /\ In b (Dict.keys all)))
    /\ (forall earlier : Graph,
          dynamic_obs earlier = true ->
          observation_radius earlier = observation_radius self ->
          exists g'', update_graphs earlier all = Ok g'' /\ obs g'' = obs g').
Proof.
  intros Hwf Hdyn. exists (updated self all).
  split; [now apply update_graphs_eq|].
  split; [|split].
  - unfold updated; cbn [obs]. rewrite Hdyn.
    apply (keys_map_rows (fun a ag => in_radius _ a ag all)).
  - intros a ag Hin. exists (in_radius (observation_radius self) a ag all).
    split; [now apply obs_after_update|]. split.
    + intros b bg Hb Hne.
      change (PrimFloat.ltb (PrimFloat.sqrt (Z2float (distance2 ag bg)))
                (observation_radius self))
        with (dist_lt (distance2 ag bg) (observation_radius self)).
      rewrite in_radius_In. split.
      * intros [bg' [Hb' [_ Hd]]].
        now rewrite (wf_functional all b bg bg' Hwf Hb Hb').
      * intros Hd. exists bg. repeat split; auto.
    + intros b Hb. apply in_radius_In in Hb.
      destruct Hb as [bg [Hb [Hne _]]].
      split; [assumption|now apply (In_keys b bg)].
  - intros earlier Hdyn' Hr. exists (updated earlier all).
    split; [now apply update_graphs_eq|].
    unfold updated; cbn [obs]. now rewrite Hdyn, Hdyn', Hr.
Qed.

Lemma obs_graph_rebuilt_witness :
  Dict.wf three_agents
  /\ dynamic_obs (Graph_init (scenario_config true false) three_agents) = true
  /\ exists g',
      update_graphs (Graph_init (scenario_config true false) three_agents)
        three_agents = Ok g'
      /\ Dict.keys (obs g') = Dict.keys three_agents
      /\ (forall a ag, In (a, ag) three_agents ->
            exists row,
              Dict.get a (obs g') = Some row
              /\ (forall b bg, In (b, bg) three_agents -> a <> b ->
                    (In b row <->
                     PrimFloat.ltb
                       (PrimFloat.sqrt (Z2float (distance2 ag bg)))
                       (observation_radius
                          (Graph_init (scenario_config true false)
                             three_agents)) = true))
              /\ (forall b, In b row -> b <> a /\ In b (Dict.keys three_agents)))
      /\ (forall earlier : Graph,
            dynamic_obs earlier = true ->
            observation_radius earlier
            = observation_radius
                (Graph_init (scenario_config true false) three_agents) ->
            exists g'', update_graphs earlier three_agents = Ok g''
                        /\ obs g'' = obs g').
Proof.
  split; [exact wf_three_agents|].
  split; [reflexivity|].
  exact (obs_graph_rebuilt
           (Graph_init (scenario_config true false) three_agents) three_agents
           wf_three_agents eq_refl).
Defined.

(** C8: for one snapshot and radii [r1 <= r2], with [dynamic_obs] true,
    every edge of the observation graph produced with
    [observation_radius = r1] is an edge of the one produced with
    [observation_radius = r2]. *)
Theorem obs_radius_monotone (self1 self2 : Graph) (all : Dict.t Agent) :
  Dict.wf all ->
  dynamic_obs self1 = true -> dynamic_obs self2 = true ->
  PrimFloat.leb (observation_radius self1) (observation_radius self2) = true ->
  exists g1 g2,
    update_graphs self1 all = Ok g1
    /\ update_graphs self2 all = Ok g2
    /\ forall a row1,
         Dict.get a (obs g1) = Some row1 ->
         exists row2,
           Dict.get a (obs g2) = Some row2
           /\ forall b, In b row1 -> In b row2.
Proof.
  intros Hwf Hdyn1 Hdyn2 Hle.
  exists (updated self1 all), (updated self2 all).
  split; [now apply update_graphs_eq|].
  split; [now apply update_graphs_eq|].
  intros a row1 Hget. unfold updated in Hget; cbn [obs] in Hget.
  rewrite Hdyn1 in Hget.
  apply (get_map_rows_inv (fun a ag => in_radius _ a ag all)) in Hget.
  destruct Hget as [ag [Hin ->]].
  exists (in_radius (observation_radius self2) a ag all).
  split; [now apply obs_after_update|].
  intros b Hb. apply in_radius_In in Hb. apply in_radius_In.
  destruct Hb as [bg [Hb [Hne Hd]]]. exists bg. repeat split; auto.
  eapply dist_lt_mono; eassumption.
Qed.

Lemma obs_radius_monotone_witness :
  Dict.wf three_agents
  /\ dynamic_obs (Graph_init (scenario_config true false) three_agents) = true
  /\ dynamic_obs
       (Graph_init (mkConfig 50 true false 2%float 1 13.5%float 3 0) three_agents)
     = true
  /\ PrimFloat.leb
       (observation_radius (Graph_init (scenario_config true false) three_agents))
       (observation_radius
          (Graph_init (mkConfig 50 true false 2%float 1 13.5%float 3 0)
             three_agents))
     = true
  /\ exists g1 g2,
      update_graphs (Graph_init (scenario_config true false) three_agents)
        three_agents = Ok g1
      /\ update_graphs
           (Graph_init (mkConfig 50 true false 2%float 1 13.5%float 3 0)
              three_agents) three_agents = Ok g2
      /\ forall a row1,
           Dict.get a (obs g1) = Some row1 ->
           exists row2,
             Dict.get a (obs g2) = Some row2
             /\ forall b, In b row1 -> In b row2.
Proof.
  split; [exact wf_three_agents|].
  split; [reflexivity|].
  split; [reflexivity|].
  split; [reflexivity|].
  exact (obs_radius_monotone
           (Graph_init (scenario_config true false) three_agents)
           (Graph_init (mkConfig 50 true false 2%float 1 13.5%float 3 0)
              three_agents)
           three_agents wf_three_agents eq_refl eq_refl eq_refl).
Defined.

(** ** Static graphs under update (C7) *)

(** C7: an update leaves a graph whose dynamic flag is false exactly as it
    was, for every snapshot: the whole mapping, hence the entry of every
    agent, is the one before the call. *)
Theorem static_graph_untouched (self : Graph) (all : Dict.t Agent) :
  Dict.wf all ->
  exists g',
    update_graphs self all = Ok g'
    /\ (dynamic_obs self = false ->
        obs g' = obs self
        /\ forall a, Dict.get a (obs g') = Dict.get a (obs self))
    /\ (dynamic_comms self = false ->
        comm g' = comm self
        /\ forall a, Dict.get a (comm g') = Dict.get a (comm self)).
Proof.
  intros Hwf. exists (updated self all).
  split; [now apply update_graphs_eq|].
  unfold updated; cbn [obs comm].
  split; intros ->; split; reflexivity.
Qed.

Lemma static_graph_untouched_witness :
  Dict.wf two_agents
  /\ exists g',
      update_graphs (Graph_init (scenario_config false false) three_agents)
        two_agents = Ok g'
      /\ (dynamic_obs (Graph_init (scenario_config false false) three_agents)
          = false ->
          obs g' = obs (Graph_init (scenario_config false false) three_agents)
          /\ forall a,
               Dict.get a (obs g')
               = Dict.get a
                   (obs (Graph_init (scenario_config false false) three_agents)))
      /\ (dynamic_comms (Graph_init (scenario_config false false) three_agents)
          = false ->
          comm g' = comm (Graph_init (scenario_config false false) three_agents)
          /\ forall a,
               Dict.get a (comm g')
               = Dict.get a
                   (comm (Graph_init (scenario_config false false) three_agents))).
Proof.
  split; [exact wf_two_agents|].
  exact (static_graph_untouched
           (Graph_init (scenario_config false false) three_agents) two_agents
           wf_two_agents).
Defined.

(** ** Reset (C6, C9) *)


(** C9: two resets in a row leave the state one reset leaves; the two
    graphs in particular. *)
Theorem reset_graphs_idempotent (self : Graph) :
  reset_graphs (reset_graphs self) = reset_graphs self
  /\ obs (reset_graphs (reset_graphs self)) = obs (reset_graphs self)
  /\ comm (reset_graphs (reset_graphs self)) = comm (reset_graphs self).
Proof.
  assert (H : reset_graphs (reset_graphs self) = reset_graphs self)
    by (destruct self; reflexivity).
  now rewrite H.
Qed.

(** ** Self-loops in the states the engine reaches *)

Lemma comprehension_empty_no_self_loop (ks : list name) :
  no_self_loop (Dict.comprehension ks (fun _ => [])).
Proof.
  intros a row Hget.
  destruct (in_dec string_dec a ks) as [Hin|Hni].
  - rewrite (get_comprehension (fun _ => []) a ks Hin) in Hget.
    inversion Hget. tauto.
  - rewrite get_comprehension_absent in Hget by assumption. discriminate.
Qed.

Lemma obs_graph_of_no_self_loop (r : float) (all : Dict.t Agent) :
  no_self_loop (obs_graph_of r all).
Proof.
  intros a row Hget.
  apply (get_map_rows_inv (fun a ag => in_radius r a ag all)) in Hget.
  destruct Hget as [ag [_ ->]]. intros Hin. apply in_radius_In in Hin.
  destruct Hin as [bg [_ [Hne _]]]. now apply Hne.
Qed.

Lemma comm_graph_of_no_self_loop (r : float) (m : Z) (all : Dict.t Agent) :
  no_self_loop (comm_graph_of r m all).
Proof.
  intros a row Hget.
  apply (get_map_rows_inv (fun a ag => comm_row r m a ag all)) in Hget.
  destruct Hget as [ag [_ ->]]. rewrite comm_row_fill. intros Hin.
  apply in_app_or in Hin. destruct Hin as [Hin|Hin].
  - apply in_radius_In in Hin. destruct Hin as [bg [_ [Hne _]]]. now apply Hne.
  - apply fill_In_out in Hin. destruct Hin as [d Hout].
    apply out_of_radius_In in Hout. destruct Hout as [bg [_ [Hne _]]].
    now apply Hne.
Qed.

(** In every reachable state the observation graph has no self-loop, and
    neither has the communication graph when [dynamic_comms] is true. *)
Theorem dynamic_graphs_no_self_loop (config : Config) (roster : Dict.t Agent)
  (g : Graph) :
  reachable config roster g ->
  dynamic_comms g = cfg_dynamic_comms config
  /\ no_self_loop (obs g)
  /\ (cfg_dynamic_comms config = true -> no_self_loop (comm g)).
Proof.
  induction 1 as [|g g' all Hreach [IHflag [IHobs IHcomm]] Hwf Hup
                  |g Hreach [IHflag [IHobs IHcomm]]].
  - split; [reflexivity|]. split.
    + apply comprehension_empty_no_self_loop.
    + unfold Graph_init; cbn [comm]. intros ->.
      apply comprehension_empty_no_self_loop.
  - rewrite update_graphs_eq in Hup by assumption.
    inversion Hup; subst g'. unfold updated; cbn [dynamic_comms obs comm].
    split; [assumption|]. split.
    + destruct (dynamic_obs g);
        [apply obs_graph_of_no_self_loop|assumption].
    + intros Hdyn. rewrite IHflag, Hdyn. apply comm_graph_of_no_self_loop.
  - unfold reset_graphs; cbn [dynamic_comms obs comm set_obs set_comm].
    split; [assumption|]. split.
    + apply comprehension_empty_no_self_loop.
    + intros Hdyn. rewrite IHflag, Hdyn. cbn [negb].
      apply comprehension_empty_no_self_loop.
Qed.

Lemma dynamic_graphs_no_self_loop_witness :
  reachable (scenario_config true true) three_agents three_agents_updated
  /\ dynamic_comms three_agents_updated
     = cfg_dynamic_comms (scenario_config true true)
  /\ no_self_loop (obs three_agents_updated)
  /\ (cfg_dynamic_comms (scenario_config true true) = true ->
      no_self_loop (comm three_agents_updated)).
Proof.
  assert (Hreach : reachable (scenario_config true true) three_agents
                     three_agents_updated).
  { eapply reach_update;
      [apply reach_init|exact wf_three_agents|exact three_agents_updated_eq]. }
  split; [exact Hreach|].
  exact (dynamic_graphs_no_self_loop (scenario_config true true) three_agents
           three_agents_updated Hreach).
Defined.

(** ** Further properties of the update *)

(** Observation is symmetric: after an update with [dynamic_obs] true, [b]
    is in the observation list of [a] exactly when [a] is in the one of
    [b]; both lists are computed from the same squared distance. *)
Theorem obs_graph_symmetric (self : Graph) (all : Dict.t Agent)
  (a b : name) (ag bg : Agent) :
  Dict.wf all -> dynamic_obs self = true ->
  In (a, ag) all -> In (b, bg) all ->
  exists g' row_a row_b,
    update_graphs self all = Ok g'
    /\ Dict.get a (obs g') = Some row_a
    /\ Dict.get b (obs g') = Some row_b
    /\ (In b row_a <-> In a row_b).
Proof.
  intros Hwf Hdyn Ha Hb.
  exists (updated self all), (in_radius (observation_radius self) a ag all),
    (in_radius (observation_radius self) b bg all).
  split; [now apply update_graphs_eq|].
  split; [now apply obs_after_update|].
  split; [now apply obs_after_update|].
  rewrite !in_radius_In. split.
  - intros [bg' [Hb' [Hne Hd]]]. exists ag.
    rewrite (wf_functional all b bg' bg Hwf Hb' Hb) in Hd.
    repeat split; auto. now rewrite distance2_sym.
  - intros [ag' [Ha' [Hne Hd]]]. exists bg.
    rewrite (wf_functional all a ag' ag Hwf Ha' Ha) in Hd.
    repeat split; auto. now rewrite distance2_sym.
Qed.

Lemma obs_graph_symmetric_witness :
  Dict.wf three_agents
  /\ dynamic_obs (Graph_init (scenario_config true false) three_agents) = true
  /\ In ("agent0"%string, mkAgent (0, 0)) three_agents
  /\ In ("agent1"%string, mkAgent (1, 0)) three_agents
  /\ exists g' row_a row_b,
      update_graphs (Graph_init (scenario_config true false) three_agents)
        three_agents = Ok g'
      /\ Dict.get "agent0"%string (obs g') = Some row_a
      /\ Dict.get "agent1"%string (obs g') = Some row_b
      /\ (In "agent1"%string row_a <-> In "agent0"%string row_b).
Proof.
  split; [exact wf_three_agents|].
  split; [reflexivity|].
  split; [simpl; tauto|].
  split; [simpl; tauto|].
  exact (obs_graph_symmetric
           (Graph_init (scenario_config true false) three_agents) three_agents
           "agent0"%string "agent1"%string (mkAgent (0, 0)) (mkAgent (1, 0))
           wf_three_agents eq_refl
           (or_introl eq_refl) (or_intror (or_introl eq_refl))).
Defined.

Lemma existsb_eqb_In (b : name) (row : list name) :
  existsb (String.eqb b) row = true <-> In b row.
Proof.
  rewrite existsb_exists. split.
  - intros [x [Hin Heq]]. apply String.eqb_eq in Heq. now subst.
  - intros Hin. exists b. split; [assumption|apply String.eqb_refl].
Qed.

Lemma filter_keys_by_test {A : Type} (p : name * A -> bool) (row : list name)
  (all : Dict.t A) :
  (forall o, In o all -> existsb (String.eqb (fst o)) row = p o) ->
  map fst (filter p all)
  = filter (fun b => existsb (String.eqb b) row) (Dict.keys all).
Proof.
  unfold Dict.keys. induction all as [|o all IH]; simpl; intros Hmem;
    [reflexivity|].
  rewrite Hmem by now left.
  destruct (p o); simpl; rewrite IH; auto.
Qed.

(** With distinct keys, a row selected by a test on the entries is the key
    list restricted to the row's members. *)
Lemma filtered_row_in_key_order {A : Type} (p : name * A -> bool) (all : Dict.t A) :
  Dict.wf all ->
  map fst (filter p all)
  = filter (fun b => existsb (String.eqb b) (map fst (filter p all)))
      (Dict.keys all).
Proof.
  intros Hwf. apply filter_keys_by_test.
  intros [k v] Hin. simpl.
  destruct (p (k, v)) eqn:E.
  - apply existsb_eqb_In. apply in_map_iff.
    exists (k, v). split; [reflexivity|]. apply filter_In. now split.
  - destruct (existsb (String.eqb k) (map fst (filter p all))) eqn:E';
      [|reflexivity].
    apply existsb_eqb_In in E'.
    apply in_map_iff in E'. destruct E' as [[k' v'] [Heq Hin']].
    simpl in Heq. subst k'. apply filter_In in Hin'.
    destruct Hin' as [Hin' Hp].
    rewrite (wf_functional all k v v' Hwf Hin Hin') in E. congruence.
Qed.

(** After an update with [dynamic_obs] true, the observation list of an
    agent has no duplicates and lists its members in the order of the
    snapshot's keys. *)
Theorem obs_row_in_snapshot_order (self : Graph) (all : Dict.t Agent)
  (a : name) (ag : Agent) :
  Dict.wf all -> dynamic_obs self = true -> In (a, ag) all ->
  exists g' row,
    update_graphs self all = Ok g'
    /\ Dict.get a (obs g') = Some row
    /\ NoDup row
    /\ row = filter (fun b => existsb (String.eqb b) row) (Dict.keys all).
Proof.
  intros Hwf Hdyn Hin.
  exists (updated self all), (in_radius (observation_radius self) a ag all).
  split; [now apply update_graphs_eq|].
  split; [now apply obs_after_update|].
  split; [now apply in_radius_NoDup|].
  unfold in_radius. now apply filtered_row_in_key_order.
Qed.

Lemma obs_row_in_snapshot_order_witness :
  Dict.wf three_agents
  /\ dynamic_obs (Graph_init (scenario_config true false) three_agents) = true
  /\ In ("agent0"%string, mkAgent (0, 0)) three_agents
  /\ exists g' row,
      update_graphs (Graph_init (scenario_config true false) three_agents)
        three_agents = Ok g'
      /\ Dict.get "agent0"%string (obs g') = Some row
      /\ NoDup row
      /\ row = filter (fun b => existsb (String.eqb b) row)
                 (Dict.keys three_agents).
Proof.
  split; [exact wf_three_agents|].
  split; [reflexivity|].
  split; [simpl; tauto|].
  exact (obs_row_in_snapshot_order
           (Graph_init (scenario_config true false) three_agents) three_agents
           "agent0"%string (mkAgent (0, 0))
           wf_three_agents eq_refl (or_introl eq_refl)).
Defined.

(** Every observed agent is a communication peer when both graphs are
    dynamic and the communication radius is at least the observation
    radius. *)
Theorem observed_agents_are_peers (self : Graph) (all : Dict.t Agent)
  (a : name) (ag : Agent) :
  Dict.wf all -> dynamic_obs self = true -> dynamic_comms self = true ->
  PrimFloat.leb (observation_radius self) (dynamic_comms_radius self) = true ->
  In (a, ag) all ->
  exists g' obs_row peers,
    update_graphs self all = Ok g'
    /\ Dict.get a (obs g') = Some obs_row
    /\ Dict.get a (comm g') = Some peers
    /\ forall b, In b obs_row -> In b peers.
Proof.
  intros Hwf Hobs Hcomm Hle Hin.
  exists (updated self all), (in_radius (observation_radius self) a ag all),
    (comm_row (dynamic_comms_radius self)
       (dynamic_comms_enforce_minimum self) a ag all).
  split; [now apply update_graphs_eq|].
  split; [now apply obs_after_update|].
  split; [now apply comm_after_update|].
  intros b Hb. rewrite comm_row_fill. apply in_or_app. left.
  apply in_radius_In in Hb. apply in_radius_In.
  destruct Hb as [bg [Hb [Hne Hd]]]. exists bg. repeat split; auto.
  eapply dist_lt_mono; eassumption.
Qed.

Lemma observed_agents_are_peers_witness :
  Dict.wf three_agents
  /\ dynamic_obs (Graph_init (scenario_config true true) three_agents) = true
  /\ dynamic_comms (Graph_init (scenario_config true true) three_agents) = true
  /\ PrimFloat.leb
       (observation_radius (Graph_init (scenario_config true true) three_agents))
       (dynamic_comms_radius (Graph_init (scenario_config true true) three_agents))
     = true
  /\ In ("agent0"%string, mkAgent (0, 0)) three_agents
  /\ exists g' obs_row peers,
      update_graphs (Graph_init (scenario_config true true) three_agents)
        three_agents = Ok g'
      /\ Dict.get "agent0"%string (obs g') = Some obs_row
      /\ Dict.get "agent0"%string (comm g') = Some peers
      /\ forall b, In b obs_row -> In b peers.
Proof.
  split; [exact wf_three_agents|].
  split; [reflexivity|].
  split; [reflexivity|].
  split; [reflexivity|].
  split; [simpl; tauto|].
  exact (observed_agents_are_peers
           (Graph_init (scenario_config true true) three_agents) three_agents
           "agent0"%string (mkAgent (0, 0))
           wf_three_agents eq_refl eq_refl eq_refl (or_introl eq_refl)).
Defined.

(** ** How updates and resets compose *)

(** The last update wins: an update after an update leaves the state the
    second update alone leaves. *)
Theorem update_graphs_last_wins (self : Graph) (first second : Dict.t Agent) :
  Dict.wf first -> Dict.wf second ->
  exists g1 g2,
    update_graphs self first = Ok g1
    /\ update_graphs g1 second = Ok g2
    /\ update_graphs self second = Ok g2.
Proof.
  intros Hwf1 Hwf2.
  exists (updated self first), (updated self second).
  split; [now apply update_graphs_eq|].
  split; [|now apply update_graphs_eq].
  rewrite update_graphs_eq by assumption. f_equal.
  unfold updated; cbn.
  destruct (dynamic_comms self), (dynamic_obs self); reflexivity.
Qed.

Lemma update_graphs_last_wins_witness :
  Dict.wf two_agents /\ Dict.wf three_agents
  /\ exists g1 g2,
      update_graphs (Graph_init (scenario_config true true) three_agents)
        two_agents = Ok g1
      /\ update_graphs g1 three_agents = Ok g2
      /\ update_graphs (Graph_init (scenario_config true true) three_agents)
           three_agents = Ok g2.
Proof.
  split; [exact wf_two_agents|].
  split; [exact wf_three_agents|].
  exact (update_graphs_last_wins
           (Graph_init (scenario_config true true) three_agents)
           two_agents three_agents wf_two_agents wf_three_agents).
Defined.

(** A reset after an update rebuilds both graphs over the agents of the
    snapshot last passed to [update_graphs], which has replaced the roster:
    every agent of the snapshot gets an empty observation list, and a
    communication list that is empty when [dynamic_comms] is true and the
    snapshot's id list otherwise. *)
Theorem reset_after_update (self : Graph) (all : Dict.t Agent) :
  Dict.wf all ->
  exists g',
    update_graphs self all = Ok g'
    /\ agents (reset_graphs g') = all
    /\ obs (reset_graphs g') = map (fun a => (a, [])) (Dict.keys all)
    /\ comm (reset_graphs g')
       = map (fun a => (a, if dynamic_comms self then [] else Dict.keys all))
           (Dict.keys all).
Proof.
  intros Hwf. exists (updated self all).
  split; [now apply update_graphs_eq|].
  unfold reset_graphs, updated; cbn.
  split; [reflexivity|].
  split; [now apply comprehension_map|].
  destruct (dynamic_comms self); cbn; now apply comprehension_map.
Qed.

Lemma reset_after_update_witness :
  Dict.wf two_agents
  /\ exists g',
      update_graphs (Graph_init (scenario_config true false) three_agents)
        two_agents = Ok g'
      /\ agents (reset_graphs g') = two_agents
      /\ obs (reset_graphs g') = map (fun a => (a, [])) (Dict.keys two_agents)
      /\ comm (reset_graphs g')
         = map (fun a =>
                  (a, if dynamic_comms
                           (Graph_init (scenario_config true false) three_agents)
                      then [] else Dict.keys two_agents))
             (Dict.keys two_agents).
Proof.
  split; [exact wf_two_agents|].
  exact (reset_after_update
           (Graph_init (scenario_config true false) three_agents) two_agents
           wf_two_agents).
Defined.

(** ** Ties in the filling step *)

Lemma before_In_r {A : Type} (x y : A) (l : list A) : before x y l -> In y l.
Proof. induction 1; simpl; auto. Qed.

Lemma before_split {A : Type} (x y : A) (l1 l2 l3 : list A) :
  before x y (l1 ++ x :: l2 ++ y :: l3).
Proof.
  induction l1 as [|z l1 IH]; simpl.
  - apply before_here. apply in_or_app. right. now left.
  - now apply before_later.
Qed.

Lemma before_map {A B : Type} (f : A -> B) (x y : A) (l : list A) :
  before x y l -> before (f x) (f y) (map f l).
Proof.
  induction 1 as [l Hin|z l Hb IH]; simpl.
  - apply before_here. now apply in_map.
  - now apply before_later.
Qed.

Lemma before_filter {A : Type} (p : A -> bool) (x y : A) (l : list A) :
  before x y l -> p x = true -> p y = true -> before x y (filter p l).
Proof.
  induction 1 as [l Hin|z l Hb IH]; simpl; intros Hx Hy.
  - rewrite Hx. apply before_here. apply filter_In. now split.
  - destruct (p z); [apply before_later|]; now apply IH.
Qed.

Lemma insert_keeps_before {A : Type} (z x y : Z * A) (l : list (Z * A)) :
  before x y l -> before x y (insert_by_key z l).
Proof.
  induction 1 as [l Hin|w l Hb IH]; simpl.
  - destruct (fst z <=? fst x).
    + apply before_later. now apply before_here.
    + apply before_here.
      apply (Permutation_in _ (Permutation_sym (insert_by_key_perm z l))).
      now right.
  - destruct (fst z <=? fst w).
    + apply before_later. now apply before_later.
    + now apply before_later.
Qed.

Lemma insert_goes_before {A : Type} (z y : Z * A) (l : list (Z * A)) :
  In y l -> fst z <= fst y -> before z y (insert_by_key z l).
Proof.
  induction l as [|w l IH]; simpl; intros Hin Hle; [destruct Hin|].
  destruct (Z.leb_spec (fst z) (fst w)) as [Hzw|Hzw].
  - now apply before_here.
  - apply before_later. apply IH; [|assumption].
    destruct Hin as [->|Hin]; [lia|assumption].
Qed.

(** The sort is stable: an entry that comes first and has no larger key
    still comes first afterwards. *)
Lemma sort_by_key_stable {A : Type} (x y : Z * A) (l : list (Z * A)) :
  before x y l -> fst x <= fst y -> before x y (sort_by_key l).
Proof.
  induction 1 as [l Hin|w l Hb IH]; simpl; intros Hle.
  - apply insert_goes_before; [|assumption].
    now apply (Permutation_in _ (Permutation_sym (sort_by_key_perm l))).
  - apply insert_keeps_before. now apply IH.
Qed.

Lemma before_firstn {A : Type} (x y : A) (l : list A) :
  before x y l -> NoDup l ->
  forall n, In y (firstn n l) -> In x (firstn n l).
Proof.
  induction 1 as [l Hin|z l Hb IH]; intros Hnd [|n] Hy;
    try (now destruct Hy); simpl in *.
  - now left.
  - inversion Hnd as [|? ? Hni Hnd']; subst.
    destruct Hy as [->|Hy].
    + exfalso. apply Hni. eapply before_In_r; eassumption.
    + right. now apply IH.
Qed.

(** Among two agents out of radius, the one that comes first in the
    snapshot and is no farther than the other is appended whenever the
    other is: the filling step breaks ties of distance by snapshot
    order. *)
Theorem comm_fill_prefers_earlier (self : Graph) (all : Dict.t Agent)
  (a b c : name) (ag bg cg : Agent) (l1 l2 l3 : list (name * Agent)) :
  Dict.wf all -> dynamic_comms self = true -> In (a, ag) all ->
  all = l1 ++ (b, bg) :: l2 ++ (c, cg) :: l3 ->
  b <> a ->
  dist_lt (distance2 ag bg) (dynamic_comms_radius self) = false ->
  dist_lt (distance2 ag cg) (dynamic_comms_radius self) = false ->
  distance2 ag bg <= distance2 ag cg ->
  exists g' row,
    update_graphs self all = Ok g'
    /\ Dict.get a (comm g') = Some row
    /\ (In c row -> In b row).
Proof.
  intros Hwf Hdyn Ha Hsplit Hba Hdb Hdc Hle.
  set (r := dynamic_comms_radius self) in *.
  set (m := dynamic_comms_enforce_minimum self).
  exists (updated self all), (comm_row r m a ag all).
  split; [now apply update_graphs_eq|].
  split; [now apply comm_after_update|].
  assert (Hb : In (b, bg) all).
  { rewrite Hsplit. apply in_or_app. right. now left. }
  assert (Hc : In (c, cg) all).
  { rewrite Hsplit. apply in_or_app. right. right.
    apply in_or_app. right. now left. }
  rewrite comm_row_fill. intros Hrow. apply in_or_app. right.
  apply in_app_or in Hrow. destruct Hrow as [Hrow|Hrow].
  { exfalso. apply in_radius_In in Hrow.
    destruct Hrow as [cg' [Hc' [_ Hd]]].
    rewrite (wf_functional all c cg' cg Hwf Hc' Hc) in Hd. congruence. }
  assert (Hca : c <> a).
  { apply fill_In_out in Hrow. destruct Hrow as [d Hout].
    apply out_of_radius_In in Hout. now destruct Hout as [? [_ [Hne _]]]. }
  destruct (Z.lt_ge_cases (len (in_radius r a ag all)) m) as [Hlt|Hge];
    [|rewrite fill_nil in Hrow by assumption; destruct Hrow].
  rewrite fill_firstn in Hrow |- * by assumption.
  set (n := Z.to_nat (m - len (in_radius r a ag all))) in *.
  set (pool := out_of_radius r a ag all) in *.
  apply in_map_iff in Hrow. destruct Hrow as [[d c'] [Heq Hcin]].
  simpl in Heq. subst c'.
  assert (Hd : d = distance2 ag cg).
  { pose proof (In_firstn _ _ _ Hcin) as Hin.
    apply (Permutation_in _ (sort_by_key_perm _)) in Hin.
    apply out_of_radius_In in Hin.
    destruct Hin as [cg' [Hc' [_ [_ ->]]]].
    now rewrite (wf_functional all c cg cg' Hwf Hc Hc'). }
  subst d.
  assert (Hpool : before (distance2 ag bg, b) (distance2 ag cg, c) pool).
  { unfold pool, out_of_radius.
    apply (before_map (fun o => (distance2 ag (snd o), fst o)) (b, bg) (c, cg)).
    apply before_filter.
    - rewrite Hsplit. apply before_split.
    - simpl. fold r. rewrite Hdb.
      destruct (String.eqb_spec b a); [contradiction|reflexivity].
    - simpl. fold r. rewrite Hdc.
      destruct (String.eqb_spec c a); [contradiction|reflexivity]. }
  apply sort_by_key_stable in Hpool; [|assumption].
  assert (Hnd : NoDup (sort_by_key pool)).
  { apply (NoDup_map_inv snd).
    eapply Permutation_NoDup;
      [apply Permutation_map; symmetry; apply sort_by_key_perm|].
    now apply out_of_radius_NoDup. }
  apply in_map_iff. exists (distance2 ag bg, b). split; [reflexivity|].
  eapply before_firstn; eassumption.
Qed.

Lemma comm_fill_prefers_earlier_witness :
  Dict.wf tie_agents
  /\ dynamic_comms (Graph_init (scenario_config false true) tie_agents) = true
  /\ In ("agent0"%string, mkAgent (0, 0)) tie_agents
  /\ tie_agents
     = [("agent0"%string, mkAgent (0, 0))]
       ++ ("agent1"%string, mkAgent (3, 0))
       :: [] ++ ("agent2"%string, mkAgent (0, 3)) :: []
  /\ "agent1"%string <> "agent0"%string
  /\ dist_lt (distance2 (mkAgent (0, 0)) (mkAgent (3, 0)))
       (dynamic_comms_radius (Graph_init (scenario_config false true) tie_agents))
     = false
  /\ dist_lt (distance2 (mkAgent (0, 0)) (mkAgent (0, 3)))
       (dynamic_comms_radius (Graph_init (scenario_config false true) tie_agents))
     = false
  /\ distance2 (mkAgent (0, 0)) (mkAgent (3, 0))
     <= distance2 (mkAgent (0, 0)) (mkAgent (0, 3))
  /\ exists g' row,
      update_graphs (Graph_init (scenario_config false true) tie_agents)
        tie_agents = Ok g'
      /\ Dict.get "agent0"%string (comm g') = Some row
      /\ (In "agent2"%string row -> In "agent1"%string row).
Proof.
  assert (Hwf : Dict.wf tie_agents).
  { unfold Dict.wf, tie_agents; simpl.
    repeat constructor; simpl; intuition discriminate. }
  assert (Hne : "agent1"%string <> "agent0"%string) by discriminate.
  assert (Hle : distance2 (mkAgent (0, 0)) (mkAgent (3, 0))
                <= distance2 (mkAgent (0, 0)) (mkAgent (0, 3)))
    by (vm_compute; discriminate).
  split; [exact Hwf|].
  split; [reflexivity|].
  split; [simpl; tauto|].
  split; [reflexivity|].
  split; [exact Hne|].
  split; [reflexivity|].
  split; [reflexivity|].
  split; [exact Hle|].
  exact (comm_fill_prefers_earlier
           (Graph_init (scenario_config false true) tie_agents) tie_agents
           "agent0"%string "agent1"%string "agent2"%string
           (mkAgent (0, 0)) (mkAgent (3, 0)) (mkAgent (0, 3))
           [("agent0"%string, mkAgent (0, 0))] [] []
           Hwf eq_refl (or_introl eq_refl) eq_refl Hne eq_refl eq_refl Hle).
Defined.

(** ** Invariants of the reachable states *)

(** Neither an update nor a reset touches the configuration: in every
    reachable state the flags, the radii, the minimum, the dimension and
    the agent count are those the constructor read; the agent count in
    particular does not follow the size of later snapshots. *)
Theorem configuration_is_immutable (config : Config) (roster : Dict.t Agent)
  (g : Graph) :
  reachable config roster g ->
  dim g = size config
  /\ dynamic_obs g = cfg_dynamic_obs config
  /\ dynamic_comms g = cfg_dynamic_comms config
  /\ dynamic_comms_radius g = cfg_dynamic_comms_radius config
  /\ dynamic_comms_enforce_minimum g = cfg_dynamic_comms_enforce_minimum config
  /\ observation_radius g = obs_radius config
  /\ num_agents g = num_good_agents config + num_adversarial_agents config.
Proof.
  induction 1 as [|g g' all Hreach IH Hwf Hup|g Hreach IH].
  - repeat split.
  - rewrite update_graphs_eq in Hup by assumption.
    inversion Hup; subst g'. exact IH.
  - exact IH.
Qed.

Lemma configuration_is_immutable_witness :
  reachable (scenario_config true true) three_agents two_agents_updated
  /\ dim two_agents_updated = size (scenario_config true true)
  /\ dynamic_obs two_agents_updated = cfg_dynamic_obs (scenario_config true true)
  /\ dynamic_comms two_agents_updated
     = cfg_dynamic_comms (scenario_config true true)
  /\ dynamic_comms_radius two_agents_updated
     = cfg_dynamic_comms_radius (scenario_config true true)
  /\ dynamic_comms_enforce_minimum two_agents_updated
     = cfg_dynamic_comms_enforce_minimum (scenario_config true true)
  /\ observation_radius two_agents_updated
     = obs_radius (scenario_config true true)
  /\ num_agents two_agents_updated
     = num_good_agents (scenario_config true true)
       + num_adversarial_agents (scenario_config true true).
Proof.
  assert (Hreach : reachable (scenario_config true true) three_agents
                     two_agents_updated).
  { eapply reach_update;
      [apply reach_init|exact wf_two_agents|exact two_agents_updated_eq]. }
  split; [exact Hreach|].
  exact (configuration_is_immutable (scenario_config true true) three_agents
           two_agents_updated Hreach).
Defined.

Lemma reachable_dynamic_obs (config : Config) (roster : Dict.t Agent) (g : Graph) :
  reachable config roster g -> dynamic_obs g = cfg_dynamic_obs config.
Proof.
  induction 1 as [|g g' all Hreach IH Hwf Hup|g Hreach IH].
  - reflexivity.
  - rewrite update_graphs_eq in Hup by assumption.
    inversion Hup; subst g'. exact IH.
  - exact IH.
Qed.

Lemma comprehension_empty_rows_empty (ks : list name) (a : name) (row : list name) :
  Dict.get a (Dict.comprehension ks (fun _ => [])) = Some row -> row = [].
Proof.
  intros Hget.
  destruct (in_dec string_dec a ks) as [Hin|Hni].
  - rewrite (get_comprehension (fun _ => []) a ks Hin) in Hget. congruence.
  - rewrite get_comprehension_absent in Hget by assumption. discriminate.
Qed.

(** With [dynamic_obs] false nobody ever observes anybody: in every
    reachable state every observation list is empty (the static
    observation graph has no complete fallback, unlike communication). *)
Theorem static_obs_rows_stay_empty (config : Config) (roster : Dict.t Agent)
  (g : Graph) :
  reachable config roster g -> cfg_dynamic_obs config = false ->
  forall a row, Dict.get a (obs g) = Some row -> row = [].
Proof.
  intros Hreach Hstatic.
  induction Hreach as [|g g' all Hreach IH Hwf Hup|g Hreach IH]; intros a row Hget.
  - eapply comprehension_empty_rows_empty. exact Hget.
  - pose proof (reachable_dynamic_obs _ _ _ Hreach) as Hflag.
    rewrite update_graphs_eq in Hup by assumption.
    inversion Hup; subst g'. unfold updated in Hget; cbn [obs] in Hget.
    rewrite Hflag, Hstatic in Hget. now apply (IH a).
  - eapply comprehension_empty_rows_empty. exact Hget.
Qed.

Lemma static_obs_rows_stay_empty_witness :
  reachable (scenario_config false true) three_agents static_obs_updated
  /\ cfg_dynamic_obs (scenario_config false true) = false
  /\ forall a row,
      Dict.get a (obs static_obs_updated) = Some row -> row = [].
Proof.
  assert (Hreach : reachable (scenario_config false true) three_agents
                     static_obs_updated).
  { eapply reach_update;
      [apply reach_init|exact wf_three_agents|exact static_obs_updated_eq]. }
  split; [exact Hreach|].
  split; [reflexivity|].
  exact (static_obs_rows_stay_empty (scenario_config false true) three_agents
           static_obs_updated Hreach eq_refl).
Defined.

(** ** Reading the graphs back *)

Lemma get_None_iff {V : Type} (a : name) (d : Dict.t V) :
  Dict.get a d = None <-> ~ In a (Dict.keys d).
Proof.
  induction d as [|[k v] d IH]; simpl; [tauto|].
  destruct (String.eqb_spec k a) as [->|Hk].
  - split; [discriminate|]. intros H. exfalso. apply H. now left.
  - rewrite IH. tauto.
Qed.

Lemma observe_KeyError (graph : Graph) (a : name) :
  observe graph a = Raise (KeyError a) <-> ~ In a (Dict.keys (obs graph)).
Proof.
  unfold observe, Dict.getitem. rewrite <- get_None_iff.
  destruct (Dict.get a (obs graph)); split; congruence.
Qed.

(** [observe] after an update: it raises [KeyError] for an agent id exactly
    when the id is not a key of the observation graph, that is, with
    [dynamic_obs] true, when the snapshot does not hold the agent, and with
    [dynamic_obs] false, when the graph did not hold it before the update,
    whatever the snapshot; it raises nothing else. *)
Theorem observe_after_update (self : Graph) (all : Dict.t Agent) (a : name) :
  Dict.wf all ->
  exists g',
    update_graphs self all = Ok g'
    /\ (observe g' a = Raise (KeyError a) <->
        if dynamic_obs self
        then ~ In a (Dict.keys all)
        else ~ In a (Dict.keys (obs self)))
    /\ (forall e, observe g' a = Raise e -> e = KeyError a).
Proof.
  intros Hwf. exists (updated self all).
  split; [now apply update_graphs_eq|]. split.
  - rewrite observe_KeyError. unfold updated; cbn [obs].
    destruct (dynamic_obs self); [|reflexivity].
    unfold obs_graph_of.
    now rewrite (keys_map_rows (fun a ag => in_radius _ a ag all)).
  - intros e. unfold observe, Dict.getitem.
    destruct (Dict.get a (obs (updated self all))); congruence.
Qed.

Lemma observe_after_update_witness :
  Dict.wf two_agents
  /\ exists g',
      update_graphs (Graph_init (scenario_config true true) three_agents)
        two_agents = Ok g'
      /\ (observe g' "agent2"%string = Raise (KeyError "agent2"%string) <->
          if dynamic_obs (Graph_init (scenario_config true true) three_agents)
          then ~ In "agent2"%string (Dict.keys two_agents)
          else ~ In "agent2"%string
                 (Dict.keys
                    (obs (Graph_init (scenario_config true true) three_agents))))
      /\ (forall e, observe g' "agent2"%string = Raise e ->
                    e = KeyError "agent2"%string).
Proof.
  split; [exact wf_two_agents|].
  exact (observe_after_update
           (Graph_init (scenario_config true true) three_agents) two_agents
           "agent2"%string wf_two_agents).
Defined.

(** In the states reached with snapshots over the roster's agent ids, every
    agent of the roster is a key of both graphs, and the stored roster has
    the same agent ids. *)
Lemma reachable_on_keys (config : Config) (roster : Dict.t Agent) (g : Graph) :
  reachable_on config roster g ->
  (forall k, In k (Dict.keys (agents g)) <-> In k (Dict.keys roster))
  /\ (forall k, In k (Dict.keys roster) ->
        (exists row, Dict.get k (obs g) = Some row)
        /\ (exists row, Dict.get k (comm g) = Some row)).
Proof.
  induction 1 as [|g g' all Hreach [IHa IHg] Hwf Hkeys Hup|g Hreach [IHa IHg]].
  - split; [reflexivity|]. intros k Hk. unfold Graph_init; cbn [obs comm].
    split; [eexists; now apply (get_comprehension (fun _ => _))|].
    destruct (negb (cfg_dynamic_comms config));
      eexists; now apply (get_comprehension (fun _ => _)).
  - rewrite update_graphs_eq in Hup by assumption.
    inversion Hup; subst g'. unfold updated; cbn [agents obs comm].
    split; [assumption|]. intros k Hk.
    assert (Hin : exists ag, In (k, ag) all).
    { apply Hkeys in Hk. unfold Dict.keys in Hk. apply in_map_iff in Hk.
      destruct Hk as [[k' ag] [Heq Hin]]. simpl in Heq. subst k'.
      now exists ag. }
    destruct Hin as [ag Hin]. split.
    + destruct (dynamic_obs g); [|now apply IHg].
      exists (in_radius (observation_radius g) k ag all).
      now apply (get_map_rows (fun a ag => in_radius _ a ag all)).
    + destruct (dynamic_comms g); [|now apply IHg].
      exists (comm_row (dynamic_comms_radius g)
                (dynamic_comms_enforce_minimum g) k ag all).
      now apply (get_map_rows (fun a ag => comm_row _ _ a ag all)).
  - unfold reset_graphs; cbn [agents obs comm set_obs set_comm].
    split; [assumption|]. intros k Hk. apply IHa in Hk.
    split; [eexists; now apply (get_comprehension (fun _ => _))|].
    destruct (negb (dynamic_comms g));
      eexists; now apply (get_comprehension (fun _ => _)).
Qed.

Lemma step_infos_body (graph : Graph) (a : name) (o c : list name)
  (infos : Dict.t (Dict.t (list name))) :
  Dict.get a (obs graph) = Some o -> Dict.get a (comm graph) = Some c ->
  Dict.get a infos = Some [] ->
  (observed <- Dict.getitem (obs graph) a ;;
   inner <- Dict.getitem infos a ;;
   let infos := Dict.set a (Dict.set "obs"%string observed inner) infos in
   reachable_peers <- Dict.getitem (comm graph) a ;;
   inner <- Dict.getitem infos a ;;
   Ok (Dict.set a (Dict.set "comm"%string reachable_peers inner) infos))
  = Ok (Dict.set a (info_of graph a) infos).
Proof.
  intros Ho Hc Hi. unfold Dict.getitem, info_of.
  rewrite Ho, Hi. cbn [bind]. rewrite Hc. cbn [bind].
  rewrite get_set_same. cbn [bind]. now rewrite set_set_same.
Qed.

Lemma step_infos_loop (graph : Graph) :
  forall (rest : list name) (pre : Dict.t (Dict.t (list name))),
    NoDup rest ->
    (forall k, In k (Dict.keys pre) -> ~ In k rest) ->
    (forall a, In a rest ->
       (exists o, Dict.get a (obs graph) = Some o)
       /\ (exists c, Dict.get a (comm graph) = Some c)) ->
    for_each rest
      (fun agent_name infos =>
         observed <- Dict.getitem (obs graph) agent_name ;;
         inner <- Dict.getitem infos agent_name ;;
         let infos := Dict.set agent_name (Dict.set "obs"%string observed inner) infos in
         reachable_peers <- Dict.getitem (comm graph) agent_name ;;
         inner <- Dict.getitem infos agent_name ;;
         Ok (Dict.set agent_name (Dict.set "comm"%string reachable_peers inner) infos))
      (pre ++ map (fun a => (a, [])) rest)
    = Ok (pre ++ map (fun a => (a, info_of graph a)) rest).
Proof.
  induction rest as [|a rest IH]; intros pre Hnd Hdisj Hkeys.
  - reflexivity.
  - inversion Hnd as [|? ? Hni Hnd']; subst.
    assert (Hpre : ~ In a (Dict.keys pre)).
    { intros Hin. apply (Hdisj a Hin). now left. }
    destruct (Hkeys a (or_introl eq_refl)) as [[o Ho] [c Hc]].
    cbn [for_each map].
    rewrite (step_infos_body graph a o c _ Ho Hc) by now apply get_app_mid.
    rewrite set_app_mid by assumption. cbn [bind].
    change (pre ++ (a, info_of graph a) :: ?l)
      with (pre ++ [(a, info_of graph a)] ++ l).
    rewrite !app_assoc. apply IH; [assumption| |].
    + intros k. unfold Dict.keys. rewrite map_app, in_app_iff. simpl.
      intros [Hin|[<-|[]]]; [|assumption].
      intros Hin'. apply (Hdisj k Hin). now right.
    + intros a' Hin. apply Hkeys. now right.
Qed.

(** The read-back of [step] never fails on the environment's states: when
    the graphs are reached with snapshots over the roster's agent ids and
    [self.agents] lists distinct agents of the roster, building [infos]
    raises no [KeyError], gives one entry per listed agent, in order, and
    stores for each agent its observation list under ["obs"] and its
    communication list under ["comm"]. *)
Theorem step_infos_reads_both_graphs (config : Config) (roster : Dict.t Agent)
  (g : Graph) (listed : list name) :
  reachable_on config roster g ->
  NoDup listed ->
  (forall a, In a listed -> In a (Dict.keys roster)) ->
  exists infos,
    step_infos g listed = Ok infos
    /\ Dict.keys infos = listed
    /\ forall a, In a listed ->
         exists o c,
           observe g a = Ok o
           /\ Dict.getitem (comm g) a = Ok c
           /\ Dict.get a infos = Some [("obs"%string, o); ("comm"%string, c)].
Proof.
  intros Hreach Hnd Hsub.
  destruct (reachable_on_keys config roster g Hreach) as [_ Hkeys].
  exists (map (fun a => (a, info_of g a)) listed).
  split; [|split].
  - unfold step_infos. rewrite comprehension_map by assumption.
    apply (step_infos_loop g listed [] Hnd); [intros k []|].
    intros a Ha. apply Hkeys. now apply Hsub.
  - unfold Dict.keys. rewrite map_map. simpl. apply map_id.
  - intros a Ha.
    destruct (Hkeys a (Hsub a Ha)) as [[o Ho] [c Hc]].
    exists o, c. unfold observe, Dict.getitem. rewrite Ho, Hc.
    split; [reflexivity|]. split; [reflexivity|].
    replace [("obs"%string, o); ("comm"%string, c)] with (info_of g a)
      by (unfold info_of; now rewrite Ho, Hc).
    apply In_get.
    + unfold Dict.wf, Dict.keys. rewrite map_map. simpl.
      now rewrite map_id.
    + apply in_map_iff. now exists a.
Qed.

Lemma step_infos_reads_both_graphs_witness :
  reachable_on (scenario_config true true) three_agents three_agents_updated
  /\ NoDup (Dict.keys three_agents)
  /\ (forall a, In a (Dict.keys three_agents) -> In a (Dict.keys three_agents))
  /\ exists infos,
      step_infos three_agents_updated (Dict.keys three_agents) = Ok infos
      /\ Dict.keys infos = Dict.keys three_agents
      /\ forall a, In a (Dict.keys three_agents) ->
           exists o c,
             observe three_agents_updated a = Ok o
             /\ Dict.getitem (comm three_agents_updated) a = Ok c
             /\ Dict.get a infos = Some [("obs"%string, o); ("comm"%string, c)].
Proof.
  assert (Hreach : reachable_on (scenario_config true true) three_agents
                     three_agents_updated).
  { eapply reach_on_update;
      [apply reach_on_init|exact wf_three_agents|reflexivity
      |exact three_agents_updated_eq]. }
  split; [exact Hreach|].
  split; [exact wf_three_agents|].
  split; [intros a Ha; exact Ha|].
  exact (step_infos_reads_both_graphs (scenario_config true true) three_agents
           three_agents_updated (Dict.keys three_agents)
           Hreach wf_three_agents (fun a Ha => Ha)).
Defined.

(** The read-back on that state: agent2 observes nobody and has agent1 as
    its communication peer. *)
Example step_infos_after_update :
  step_infos three_agents_updated (Dict.keys three_agents)
  = Ok [("agent0", [("obs", ["agent1"]); ("comm", ["agent1"])]);
        ("agent1", [("obs", ["agent0"]); ("comm", ["agent0"])]);
        ("agent2", [("obs", []); ("comm", ["agent1"])])]%string.
Proof. reflexivity. Qed.

(** ** Edge values of the radius *)

(** With an observation radius that is zero or negative the update
    accepts the configuration and nobody observes anybody: every
    observation list is empty. *)
Theorem nonpositive_radius_observes_nobody (self : Graph) (all : Dict.t Agent) :
  Dict.wf all -> dynamic_obs self = true ->
  PrimFloat.leb (observation_radius self) PrimFloat.zero = true ->
  exists g',
    update_graphs self all = Ok g'
    /\ Dict.keys (obs g') = Dict.keys all
    /\ forall a row, Dict.get a (obs g') = Some row -> row = [].
Proof.
  intros Hwf Hdyn Hr. exists (updated self all).
  split; [now apply update_graphs_eq|].
  unfold updated; cbn [obs]. rewrite Hdyn. split.
  - apply (keys_map_rows (fun a ag => in_radius _ a ag all)).
  - intros a row Hget.
    apply (get_map_rows_inv (fun a ag => in_radius _ a ag all)) in Hget.
    destruct Hget as [ag [_ ->]].
    destruct (in_radius (observation_radius self) a ag all) as [|b row] eqn:E;
      [reflexivity|].
    assert (Hb : In b (in_radius (observation_radius self) a ag all))
      by (rewrite E; now left).
    apply in_radius_In in Hb. destruct Hb as [bg [_ [_ Hd]]].
    rewrite dist_lt_nonpositive in Hd by assumption. discriminate.
Qed.

Lemma nonpositive_radius_observes_nobody_witness :
  Dict.wf three_agents
  /\ dynamic_obs
       (Graph_init (mkConfig 50 true false 2%float 1 0%float 3 0) three_agents)
     = true
  /\ PrimFloat.leb
       (observation_radius
          (Graph_init (mkConfig 50 true false 2%float 1 0%float 3 0) three_agents))
       PrimFloat.zero
     = true
  /\ exists g',
      update_graphs
        (Graph_init (mkConfig 50 true false 2%float 1 0%float 3 0) three_agents)
        three_agents = Ok g'
      /\ Dict.keys (obs g') = Dict.keys three_agents
      /\ forall a row, Dict.get a (obs g') = Some row -> row = [].
Proof.
  split; [exact wf_three_agents|].
  split; [reflexivity|].
  split; [reflexivity|].
  exact (nonpositive_radius_observes_nobody
           (Graph_init (mkConfig 50 true false 2%float 1 0%float 3 0) three_agents)
           three_agents wf_three_agents eq_refl eq_refl).
Defined.

(** The comparison with the radius is strict: an agent whose distance to
    [a] is exactly the integer observation radius is not in the
    observation list of [a] (for every integer radius below 2^20). *)
Theorem agent_at_radius_not_observed (self : Graph) (all : Dict.t Agent)
  (a b : name) (ag bg : Agent) (rz : Z) :
  Dict.wf all -> dynamic_obs self = true ->
  In (a, ag) all -> In (b, bg) all ->
  0 <= rz < 2 ^ 20 ->
  observation_radius self = Z2float rz ->
  distance2 ag bg = rz * rz ->
  exists g' row,
    update_graphs self all = Ok g'
    /\ Dict.get a (obs g') = Some row
    /\ ~ In b row.
Proof.
  intros Hwf Hdyn Ha Hb Hrz Hr Hd.
  exists (updated self all), (in_radius (observation_radius self) a ag all).
  split; [now apply update_graphs_eq|].
  split; [now apply obs_after_update|].
  intros Hin. apply in_radius_In in Hin.
  destruct Hin as [bg' [Hb' [_ Hlt]]].
  rewrite (wf_functional all b bg' bg Hwf Hb' Hb), Hr, Hd in Hlt.
  rewrite dist_lt_at_radius in Hlt by assumption. discriminate.
Qed.

Lemma agent_at_radius_not_observed_witness :
  Dict.wf three_agents
  /\ dynamic_obs
       (Graph_init (mkConfig 50 true false 2%float 1 1%float 3 0) three_agents)
     = true
  /\ In ("agent0"%string, mkAgent (0, 0)) three_agents
  /\ In ("agent1"%string, mkAgent (1, 0)) three_agents
  /\ 0 <= 1 < 2 ^ 20
  /\ observation_radius
       (Graph_init (mkConfig 50 true false 2%float 1 1%float 3 0) three_agents)
     = Z2float 1
  /\ distance2 (mkAgent (0, 0)) (mkAgent (1, 0)) = 1 * 1
  /\ exists g' row,
      update_graphs
        (Graph_init (mkConfig 50 true false 2%float 1 1%float 3 0) three_agents)
        three_agents = Ok g'
      /\ Dict.get "agent0"%string (obs g') = Some row
      /\ ~ In "agent1"%string row.
Proof.
  assert (Hrz : 0 <= 1 < 2 ^ 20) by (split; [discriminate|reflexivity]).
  split; [exact wf_three_agents|].
  split; [reflexivity|].
  split; [simpl; tauto|].
  split; [simpl; tauto|].
  split; [exact Hrz|].
  split; [reflexivity|].
  split; [reflexivity|].
  exact (agent_at_radius_not_observed
           (Graph_init (mkConfig 50 true false 2%float 1 1%float 3 0) three_agents)
           three_agents "agent0"%string "agent1"%string
           (mkAgent (0, 0)) (mkAgent (1, 0)) 1
           wf_three_agents eq_refl
           (or_introl eq_refl) (or_intror (or_introl eq_refl))
           Hrz eq_refl eq_refl).
Defined.
